(** * Sketchris: the game core of [src/sketchris.js]

    A shallow embedding of the Tetris core of Sketchris (arena, collision,
    merge, rotation with wall kicks, line clearing, scoring, spawn queue and
    the key/button handlers) together with the properties the specification
    states about it.

    Modelling conventions.
    - JavaScript numbers that the game only uses as integers (coordinates,
      score, level, line counts) are [Z]; the arithmetic is exact as long as
      the values stay below 2^53, which the embedding does not track.
    - Arrays are lists; [a[i]] on a missing index is [None] (JS [undefined]),
      and reading a property of [undefined]/[null] raises [TypeError], as
      in JS.
    - The module-level variables ([arena], [player], [queue], [score], ...)
      are the fields of one record [Game] threaded through a state monad
      whose outcomes also record uncaught exceptions: state written before a
      [throw] stays written, as in JS.
    - DOM and audio effects are reduced to what the game logic can observe:
      the pad overlay is a boolean, audio cues are appended to a trace,
      [renderBoard] only paints. *)

From Stdlib Require Import ZArith Lia Bool.
From stdpp Require Import base tactics list.

Local Open Scope Z_scope.

(** ** Data model *)

(** [PIECE_CODES]: the seven piece kinds ('I','J','L','O','S','T','Z'). *)
Inductive PieceCode : Type := pI | pJ | pL | pO | pS | pT | pZ.

Definition PIECE_CODES : list PieceCode := [pI; pJ; pL; pO; pS; pT; pZ].

(** A shape matrix: rows of numbers 0/1, tested only for truthiness. *)
Abbreviation Matrix := (list (list Z)).

(** An arena cell: [null] ([None]) or the piece code written by [merge]. *)
Abbreviation Cell := (option PieceCode).
Abbreviation Arena := (list (list Cell)).

Definition COLS : Z := 10.
Definition ROWS : Z := 20.
Definition DROP_START_SPEED_MS : Z := 800.
Definition SPEED_PER_LEVEL : Z := 60.

(** [SHAPES[code]]: the four tabulated orientations of each piece. *)
Definition SHAPES (code : PieceCode) : list Matrix :=
  match code with
  | pI => [ [[0;0;0;0];[1;1;1;1];[0;0;0;0];[0;0;0;0]];
            [[0;0;1;0];[0;0;1;0];[0;0;1;0];[0;0;1;0]];
            [[0;0;0;0];[0;0;0;0];[1;1;1;1];[0;0;0;0]];
            [[0;1;0;0];[0;1;0;0];[0;1;0;0];[0;1;0;0]] ]
  | pO => [ [[1;1];[1;1]];
            [[1;1];[1;1]];
            [[1;1];[1;1]];
            [[1;1];[1;1]] ]
  | pT => [ [[0;1;0];[1;1;1];[0;0;0]];
            [[0;1;0];[0;1;1];[0;1;0]];
            [[0;0;0];[1;1;1];[0;1;0]];
            [[0;1;0];[1;1;0];[0;1;0]] ]
  | pS => [ [[0;1;1];[1;1;0];[0;0;0]];
            [[0;1;0];[0;1;1];[0;0;1]];
            [[0;0;0];[0;1;1];[1;1;0]];
            [[1;0;0];[1;1;0];[0;1;0]] ]
  | pZ => [ [[1;1;0];[0;1;1];[0;0;0]];
            [[0;0;1];[0;1;1];[0;1;0]];
            [[0;0;0];[1;1;0];[0;1;1]];
            [[0;1;0];[1;1;0];[1;0;0]] ]
  | pJ => [ [[1;0;0];[1;1;1];[0;0;0]];
            [[0;1;1];[0;1;0];[0;1;0]];
            [[0;0;0];[1;1;1];[0;0;1]];
            [[0;1;0];[0;1;0];[1;1;0]] ]
  | pL => [ [[0;0;1];[1;1;1];[0;0;0]];
            [[0;1;0];[0;1;0];[0;1;1]];
            [[0;0;0];[1;1;1];[1;0;0]];
            [[1;1;0];[0;1;0];[0;1;0]] ]
  end.

Module Pos.
Record t : Type := mk { x : Z; y : Z }.
End Pos.

(** The [player] object. [matrix = None] is [player.matrix = null]: no piece
    is in play (the controller is Idle). *)
Record Player : Type := mkPlayer {
  pos : Pos.t;
  matrix : option Matrix;
  rot : Z;
  type : option PieceCode;
}.

(** The audio cues handed to [AudioMgr.play]. *)
Inductive Cue : Type := CueSummon | CueLock | CueLine.

(** The mutable module state of the script. [cues] is the trace of
    [AudioMgr.play] calls, oldest first; [padOverlay] is whether the pad
    overlay is shown (drawing blocked). *)
Record Game : Type := mkGame {
  arena : Arena;
  player : Player;
  queue : list PieceCode;
  score : Z;
  level : Z;
  cleared : Z;
  dropCounter : Z;
  paused : bool;
  gameReady : bool;
  padOverlay : bool;
  cues : list Cue;
}.

Definition set_arena (a : Arena) (g : Game) : Game :=
  mkGame a (player g) (queue g) (score g) (level g) (cleared g)
         (dropCounter g) (paused g) (gameReady g) (padOverlay g) (cues g).
Definition set_player (p : Player) (g : Game) : Game :=
  mkGame (arena g) p (queue g) (score g) (level g) (cleared g)
         (dropCounter g) (paused g) (gameReady g) (padOverlay g) (cues g).
Definition set_queue (q : list PieceCode) (g : Game) : Game :=
  mkGame (arena g) (player g) q (score g) (level g) (cleared g)
         (dropCounter g) (paused g) (gameReady g) (padOverlay g) (cues g).
Definition set_stats (s l c : Z) (g : Game) : Game :=
  mkGame (arena g) (player g) (queue g) s l c
         (dropCounter g) (paused g) (gameReady g) (padOverlay g) (cues g).
Definition set_dropCounter (d : Z) (g : Game) : Game :=
  mkGame (arena g) (player g) (queue g) (score g) (level g) (cleared g)
         d (paused g) (gameReady g) (padOverlay g) (cues g).
Definition set_paused (b : bool) (g : Game) : Game :=
  mkGame (arena g) (player g) (queue g) (score g) (level g) (cleared g)
         (dropCounter g) b (gameReady g) (padOverlay g) (cues g).
Definition set_padOverlay (b : bool) (g : Game) : Game :=
  mkGame (arena g) (player g) (queue g) (score g) (level g) (cleared g)
         (dropCounter g) (paused g) (gameReady g) b (cues g).
Definition add_cue (c : Cue) (g : Game) : Game :=
  mkGame (arena g) (player g) (queue g) (score g) (level g) (cleared g)
         (dropCounter g) (paused g) (gameReady g) (padOverlay g) (cues g ++ [c]).

Definition set_pos (p : Pos.t) (pl : Player) : Player :=
  mkPlayer p (matrix pl) (rot pl) (type pl).
Definition set_matrix (m : option Matrix) (pl : Player) : Player :=
  mkPlayer (pos pl) m (rot pl) (type pl).

(** [player.pos.x += d] and [player.pos.y += d]. *)
Definition shift_x (d : Z) (g : Game) : Game :=
  set_player (set_pos (Pos.mk (Pos.x (pos (player g)) + d) (Pos.y (pos (player g))))
                      (player g)) g.
Definition shift_y (d : Z) (g : Game) : Game :=
  set_player (set_pos (Pos.mk (Pos.x (pos (player g))) (Pos.y (pos (player g)) + d))
                      (player g)) g.
(** [player.pos.x = v]. *)
Definition put_x (v : Z) (g : Game) : Game :=
  set_player (set_pos (Pos.mk v (Pos.y (pos (player g)))) (player g)) g.
(** [player.matrix = m]. *)
Definition put_matrix (m : option Matrix) (g : Game) : Game :=
  set_player (set_matrix m (player g)) g.

(** ** Exceptions and the state monad *)

Inductive JsError : Type := TypeError | ReferenceError.

(** A pure computation that may throw. *)
Inductive completion (A : Type) : Type :=
| Normal (a : A)
| Abrupt (e : JsError).
Arguments Normal {A} a.
Arguments Abrupt {A} e.

(** The result of running a handler on a game state: normal return, an
    uncaught exception (with the state as mutated so far), or [Spin] when
    the fuel of a [while(true)] loop is exhausted. *)
Inductive outcome (A : Type) : Type :=
| Done (a : A) (g : Game)
| Raised (e : JsError) (g : Game)
| Spin.
Arguments Done {A} a g.
Arguments Raised {A} e g.
Arguments Spin {A}.

Definition M (A : Type) : Type := Game -> outcome A.

Definition ret {A : Type} (a : A) : M A := fun g => Done a g.
Definition bind {A B : Type} (c : M A) (k : A -> M B) : M B :=
  fun g => match c g with
           | Done a g' => k a g'
           | Raised e g' => Raised e g'
           | Spin => Spin
           end.
Definition throw {A : Type} (e : JsError) : M A := fun g => Raised e g.
Definition spin {A : Type} : M A := fun _ => Spin.
Definition get : M Game := fun g => Done g g.
Definition modify (f : Game -> Game) : M unit := fun g => Done tt (f g).
Definition lift {A : Type} (c : completion A) : M A :=
  match c with
  | Normal a => ret a
  | Abrupt e => throw e
  end.

Notation "'let!' x ':=' c 'in' k" := (bind c (fun x => k))
  (at level 10, x name, c at level 100, k at level 200).
Notation "c ';;;' k" := (bind c (fun _ => k))
  (at level 100, k at level 200, right associativity).

(** The final state of an outcome, when there is one. *)
Definition final {A : Type} (o : outcome A) : option Game :=
  match o with
  | Done _ g => Some g
  | Raised _ g => Some g
  | Spin => None
  end.

(** ** Arena primitives *)

Definition truthy (v : Z) : bool := negb (v =? 0).

(** Truthiness of [row[x]]: [undefined] and [null] are falsy, a piece code
    is a non-empty string. *)
Definition occupied (c : option Cell) : bool :=
  match c with
  | Some (Some _) => true
  | _ => false
  end.

(** [createMatrix()]. *)
Definition createMatrix : Arena :=
  replicate (Z.to_nat ROWS) (replicate (Z.to_nat COLS) None).

(** The inner [for x] loop of [collide] on one matrix row, from column [x].
    [Normal true] is [return true]; [Normal false] is the loop running to
    its end. [arena[ay]] is read only after the bounds test passed, and
    [arena[ay][ax]] raises when [arena[ay]] is [undefined]. *)
Fixpoint collide_row (arena : Arena) (p : Pos.t) (y : Z) (row : list Z) (x : Z)
  : completion bool :=
  match row with
  | [] => Normal false
  | v :: row' =>
      if truthy v then
        let ay := y + Pos.y p in
        let ax := x + Pos.x p in
        if (ay <? 0) || (ay >=? ROWS) || (ax <? 0) || (ax >=? COLS) then Normal true
        else match arena !! Z.to_nat ay with
             | None => Abrupt TypeError
             | Some r =>
                 if occupied (r !! Z.to_nat ax) then Normal true
                 else collide_row arena p y row' (x + 1)
             end
      else collide_row arena p y row' (x + 1)
  end.

(** The outer [for y] loop of [collide], from row [y]. *)
Fixpoint collide_rows (arena : Arena) (p : Pos.t) (m : Matrix) (y : Z)
  : completion bool :=
  match m with
  | [] => Normal false
  | row :: m' =>
      match collide_row arena p y row 0 with
      | Normal false => collide_rows arena p m' (y + 1)
      | r => r
      end
  end.

(** [collide(arena, piece)]: [matrix.length] on a [null] matrix raises. *)
Definition collide (arena : Arena) (piece : Player) : completion bool :=
  match matrix piece with
  | None => Abrupt TypeError
  | Some m => collide_rows arena (pos piece) m 0
  end.

(** [collide(arena, player)] on the module state. *)
Definition collideM : M bool := fun g => lift (collide (arena g) (player g)) g.

(** [row[ax] = t] on a JS array: a negative index only adds a property, an
    index past the end extends the array (the holes are falsy, like
    [null]). *)
Definition row_set (row : list Cell) (ax : Z) (t : Cell) : list Cell :=
  if ax <? 0 then row
  else if ax <? Z.of_nat (length row) then <[Z.to_nat ax := t]> row
  else row ++ replicate (Z.to_nat ax - length row) None ++ [t].

(** [arena[ay][ax] = t]: raises when [arena[ay]] is [undefined]. *)
Definition arena_write (ay ax : Z) (t : Cell) : M unit :=
  fun g =>
    if ay <? 0 then Raised TypeError g
    else match arena g !! Z.to_nat ay with
         | None => Raised TypeError g
         | Some row =>
             Done tt (set_arena (<[Z.to_nat ay := row_set row ax t]> (arena g)) g)
         end.

(** [Array.prototype.forEach((v, i) => ...)] with the index counted from
    [i]. *)
Fixpoint forEachM {A : Type} (f : A -> Z -> M unit) (l : list A) (i : Z) : M unit :=
  match l with
  | [] => ret tt
  | v :: l' => f v i ;;; forEachM f l' (i + 1)
  end.

(** [merge(arena, player)]. *)
Definition merge : M unit :=
  let! g := get in
  match matrix (player g) with
  | None => throw TypeError
  | Some m =>
      forEachM (fun row y =>
        forEachM (fun v x =>
          if truthy v then
            let! g' := get in
            arena_write (y + Pos.y (pos (player g'))) (x + Pos.x (pos (player g')))
                        (type (player g'))
          else ret tt) row 0) m 0
  end.

(** [ret[x][c] = v] on the square array built by [rotateMatrix]. *)
Definition matrix_set (ret : Matrix) (x c : nat) (v : Z) : Matrix :=
  match ret !! x with
  | Some r => <[x := <[c := v]> r]> ret
  | None => ret
  end.

(** [m[y][x]]; the catalog matrices are square, so the read is in range
    there. A missing entry reads as 0 (falsy, like [undefined]). *)
Definition matrix_get (m : Matrix) (y x : nat) : Z :=
  match m !! y with
  | Some r => default 0 (r !! x)
  | None => 0
  end.

(** [rotateMatrix(m)]: both [for] loops, writing
    [ret[x][N-1-y] = m[y][x]]. *)
Definition rotateMatrix (m : Matrix) : Matrix :=
  let N := length m in
  let ret := replicate N (replicate N 0) in
  foldl (fun ret y =>
           foldl (fun ret x => matrix_set ret x (N - 1 - y)%nat (matrix_get m y x))
                 ret (seq 0 N))
        ret (seq 0 N).

(** ** Line clearing and scoring *)

Definition playCue (c : Cue) : M unit := modify (add_cue c).
Definition showPadOverlay (show : bool) : M unit := modify (set_padOverlay show).
(** [renderBoard()] only paints the board canvas. *)
Definition renderBoard : M unit := ret tt.
(** [renderSide()] is called by [enqueuePredictedPiece] and
    [summonPieceNow] but is declared nowhere in the script ("removed side
    rendering"): the call raises [ReferenceError]. *)
Definition renderSide : M unit := throw ReferenceError.
(** [resetPad()] only paints the drawing pad. *)
Definition resetPad : M unit := ret tt.

(** The test of the inner loop of [clearLines]: no [x < COLS] with a falsy
    [arena[y][x]]. *)
Definition row_full (row : list Cell) : bool :=
  forallb (fun x => occupied (row !! x)) (seq 0 (Z.to_nat COLS)).

(** [onLinesCleared(n)]: [[0,40,100,300,1200][n] || 0] points times the
    level before the increment. *)
Definition points_table : list Z := [0; 40; 100; 300; 1200].
Definition points_for (n : Z) : Z :=
  if n <? 0 then 0 else default 0 (points_table !! Z.to_nat n).
Definition onLinesCleared (n : Z) : M unit :=
  modify (fun g =>
    let points := points_for n in
    let score' := score g + points * level g in
    let cleared' := cleared g + n in
    let level' := if cleared' >=? level g * 10 then level g + 1 else level g in
    set_stats score' level' cleared' g).

(** The labelled [outer] loop of [clearLines], entered with the loop
    variable [y] and the running count [lines]. On a full row the row is
    spliced out, blanked in place and unshifted, and [y++] cancels the
    [y--] of the loop header. The loop always ends; [fuel] only bounds the
    unfolding. *)
Fixpoint clearLines_loop (fuel : nat) (y : Z) (lines : Z) : M Z :=
  match fuel with
  | O => spin
  | S fuel' =>
      if y >=? 0 then
        let! g := get in
        match arena g !! Z.to_nat y with
        | None => throw TypeError
        | Some row =>
            if row_full row then
              let row' := replicate (length row) None in
              modify (set_arena (row' :: delete (Z.to_nat y) (arena g))) ;;;
              clearLines_loop fuel' (y + 1 - 1) (lines + 1)
            else clearLines_loop fuel' (y - 1) lines
        end
      else ret lines
  end.

(** Each iteration either decrements [y] or removes one of the at most
    [ROWS] full rows among the rows the loop visits. *)
Definition clearLines_fuel : nat := Z.to_nat (2 * ROWS + 1).

(** [clearLines()]. *)
Definition clearLines : M unit :=
  let! lines := clearLines_loop clearLines_fuel (ROWS - 1) 0 in
  if lines >? 0 then playCue CueLine ;;; onLinesCleared lines
  else ret tt.

(** ** Spawn queue *)

(** [getNextCode()]: [queue.shift()] or [null]. *)
Definition getNextCode : M (option PieceCode) :=
  fun g => match queue g with
           | [] => Done None g
           | code :: q => Done (Some code) (set_queue q g)
           end.

(** [SHAPES[code][0]], copied row by row. *)
Definition shape0 (code : PieceCode) : Matrix := default [] (SHAPES code !! 0%nat).

(** [createPiece(code)]. *)
Definition createPiece (code : PieceCode) : Player :=
  {| type := Some code; matrix := Some (shape0 code); rot := 0; pos := Pos.mk 3 0 |}.

(** The game-over branch shared by [spawnNext] and [summonPieceNow]:
    [arena.forEach(r=>r.fill(null)); score=0; level=1; cleared=0]. *)
Definition gameOverReset : M unit :=
  modify (fun g => set_stats 0 1 0
                     (set_arena (map (fun r => replicate (length r) None) (arena g)) g)).

(** [spawnNext()]. *)
Definition spawnNext : M unit :=
  let! code := getNextCode in
  match code with
  | None =>
      modify (put_matrix None) ;;;
      showPadOverlay false
  | Some code =>
      let p := createPiece code in
      modify (set_player {| type := Some code; matrix := matrix p; rot := 0;
                            pos := Pos.mk 3 0 |}) ;;;
      let! hit := collideM in
      (if hit then gameOverReset else ret tt) ;;;
      showPadOverlay true
  end.

(** [summonPieceNow(code)] (not called anywhere in the script). *)
Definition summonPieceNow (code : PieceCode) : M unit :=
  let p := createPiece code in
  modify (fun g => set_player {| type := Some code; matrix := matrix p; rot := 0;
                                 pos := Pos.mk 3 0 |} g) ;;;
  showPadOverlay true ;;;
  let! hit := collideM in
  (if hit then gameOverReset else ret tt) ;;;
  modify (set_dropCounter 0) ;;;
  renderSide.

Definition isPieceActive (g : Game) : bool :=
  match matrix (player g) with
  | Some _ => true
  | None => false
  end.

(** [enqueuePredictedPiece(code)] (not called anywhere in the script). *)
Definition enqueuePredictedPiece (code : PieceCode) : M unit :=
  modify (fun g => set_queue (queue g ++ [code]) g) ;;;
  let! g := get in
  (if isPieceActive g then ret tt else spawnNext) ;;;
  renderSide.

(** ** Controls *)

(** [playerDrop()]: the soft drop, also driven by gravity. *)
Definition playerDrop : M unit :=
  let! g := get in
  if isPieceActive g then
    modify (shift_y 1) ;;;
    let! hit := collideM in
    (if hit then
       modify (shift_y (-1)) ;;;
       merge ;;;
       playCue CueLock ;;;
       clearLines ;;;
       modify (put_matrix None) ;;;
       showPadOverlay false ;;;
       spawnNext
     else ret tt) ;;;
    modify (set_dropCounter 0) ;;;
    renderBoard
  else ret tt.

(** [playerMove(dir)]. *)
Definition playerMove (dir : Z) : M unit :=
  modify (shift_x dir) ;;;
  let! hit := collideM in
  (if hit then modify (shift_x (- dir)) else ret tt) ;;;
  renderBoard.

(** The [for (const k of kicks)] loop of [playerRotate]; the result says
    whether the loop left through its [return]. *)
Fixpoint playerRotate_kicks (rotated : Matrix) (oldX : Z) (kicks : list Z) : M bool :=
  match kicks with
  | [] => ret false
  | k :: kicks' =>
      modify (put_x (oldX + k)) ;;;
      let! g := get in
      let old := matrix (player g) in
      modify (put_matrix (Some rotated)) ;;;
      let! hit := collideM in
      if negb hit then ret true
      else modify (put_matrix old) ;;; playerRotate_kicks rotated oldX kicks'
  end.

Definition kicks : list Z := [0; 1; -1; 2; -2].

(** [playerRotate()]. *)
Definition playerRotate : M unit :=
  let! g := get in
  match matrix (player g) with
  | None => ret tt
  | Some m =>
      let rotated := rotateMatrix m in
      let oldX := Pos.x (pos (player g)) in
      let! returned := playerRotate_kicks rotated oldX kicks in
      if returned then ret tt
      else modify (put_x oldX) ;;; renderBoard
  end.

(** [holdPiece()] has an empty body. *)
Definition holdPiece : M unit := ret tt.

(** The [while(true)] loop of the hard-drop handlers (the [' '] key and
    [btnHard] have the same body). *)
Fixpoint hardDrop_loop (fuel : nat) : M unit :=
  match fuel with
  | O => spin
  | S fuel' =>
      modify (shift_y 1) ;;;
      let! hit := collideM in
      if hit then
        modify (shift_y (-1)) ;;;
        merge ;;;
        clearLines ;;;
        spawnNext
      else hardDrop_loop fuel'
  end.

(** The hard-drop handler. *)
Definition hardDrop (fuel : nat) : M unit :=
  let! g := get in
  if isPieceActive g then hardDrop_loop fuel ;;; renderBoard
  else ret tt.

(** ** Recognition hand-over *)

(** The part of [onPadReleased] after [await predictPad()], given the value
    of [PIECE_CODES[best]] ([None] when the index is out of the table). *)
Definition onPadReleased_resume (pieceCode : option PieceCode) : M unit :=
  resetPad ;;;
  match pieceCode with
  | Some code =>
      modify (fun g => set_queue (code :: queue g) g) ;;;
      spawnNext ;;;
      renderBoard
  | None => showPadOverlay false
  end.

(** [onPadReleased()], with the classifier's answer as a parameter. The
    session exists whenever the handler is installed. *)
Definition onPadReleased (pieceCode : option PieceCode) : M unit :=
  let! g := get in
  if isPieceActive g || negb (gameReady g) then ret tt
  else
    playCue CueSummon ;;;
    showPadOverlay true ;;;
    onPadReleased_resume pieceCode.

(** ** Game loop and events *)

Definition dropInterval (g : Game) : Z :=
  Z.max 100 (DROP_START_SPEED_MS - (level g - 1) * SPEED_PER_LEVEL).

(** [update(time)] with [delta = time - lastTime] given in whole
    milliseconds; the re-scheduling through [requestAnimationFrame] is the
    [EvFrame] event below. *)
Definition update (delta : Z) : M unit :=
  let! g := get in
  (if negb (paused g) && isPieceActive g then
     modify (set_dropCounter (dropCounter g + delta)) ;;;
     let! g' := get in
     if dropCounter g' >? dropInterval g' then playerDrop else ret tt
   else ret tt) ;;;
  renderBoard.

(** What the page can deliver to the script once it has booted. [KeySpace]
    carries the fuel for the [while(true)] loop of the hard drop. *)
Inductive Event : Type :=
| KeyArrowLeft | KeyArrowRight | KeyArrowDown
| KeySpace (fuel : nat)
| KeyArrowUp | KeyZ | KeyC | KeyP
| PadReleased (pieceCode : option PieceCode)
| PadResumed (pieceCode : option PieceCode)
| EvFrame (delta : Z).

(** The handler run for each event ([btnLeft], [btnRight], [btnRotate],
    [btnSoft] and [btnHard] run the same bodies as the keys). [PadResumed]
    is the continuation of an [onPadReleased] whose [await] was overtaken
    by another event. *)
Definition handle (e : Event) : M unit :=
  match e with
  | KeyArrowLeft => playerMove (-1)
  | KeyArrowRight => playerMove 1
  | KeyArrowDown => playerDrop
  | KeySpace fuel => hardDrop fuel
  | KeyArrowUp => playerRotate
  | KeyZ => playerRotate ;;; playerRotate ;;; playerRotate
  | KeyC => holdPiece
  | KeyP => modify (fun g => set_paused (negb (paused g)) g)
  | PadReleased c => onPadReleased c
  | PadResumed c => onPadReleased_resume c
  | EvFrame delta => update delta
  end.

(** The state after the boot sequence [spawnNext(); update(); gameReady =
    true] on the freshly initialised variables. *)
Definition boot : Game :=
  {| arena := createMatrix;
     player := {| pos := Pos.mk 3 0; matrix := None; rot := 0; type := None |};
     queue := []; score := 0; level := 1; cleared := 0;
     dropCounter := 0; paused := false; gameReady := true;
     padOverlay := false; cues := [] |}.

(** One event handled to completion: by a normal return or by an uncaught
    exception, after which the page keeps running on the state as left. A
    run that exhausts its fuel is not a step. *)
Inductive step : Game -> Game -> Prop :=
| step_event (e : Event) (g g' : Game) :
    final (handle e g) = Some g' -> step g g'.

Inductive reachable : Game -> Prop :=
| reachable_boot : reachable boot
| reachable_step (g g' : Game) : reachable g -> step g g' -> reachable g'.

(** Iterating a function, for repeated rotation. *)
Fixpoint iter {A : Type} (n : nat) (f : A -> A) (a : A) : A :=
  match n with
  | O => a
  | S n' => f (iter n' f a)
  end.

(** ** Auxiliary notions used in the statements *)

(** The state in which [spawnNext] tests the collision of the new piece. *)
Definition spawned (code : PieceCode) (q : list PieceCode) (g : Game) : Game :=
  set_player (createPiece code) (set_queue q g).

(** The state in which [playerRotate] tests one wall kick: the rotated
    matrix at column [x]. *)
Definition kick_state (g : Game) (rotated : Matrix) (x : Z) : Game :=
  put_matrix (Some rotated) (put_x x g).

(** A matrix with as many columns in every row as it has rows. *)
Definition square (m : Matrix) : Prop := Forall (fun r => length r = length m) m.

(** The rows [clearLines] removes, the rows it keeps, and the blanked row
    it puts back on top. *)
Definition full_rows (a : Arena) : Arena := filter (fun r => row_full r = true) a.
Definition kept_rows (a : Arena) : Arena := filter (fun r => row_full r = false) a.
Definition blank_row (row : list Cell) : list Cell := replicate (length row) None.

(** A state predicate kept by a computation: from a state satisfying [P],
    whatever state the computation ends in, by return or by exception,
    satisfies [P] again. *)
Definition preserves {A : Type} (P : Game -> Prop) (c : M A) : Prop :=
  forall g, P g -> match c g with
                   | Done _ g' => P g'
                   | Raised _ g' => P g'
                   | Spin => True
                   end.

(** The rotation index is still [r], or has been reset to 0 by a spawn. *)
Definition rot_kept (r : Z) (g : Game) : Prop :=
  rot (player g) = r \/ rot (player g) = 0.

(** Nothing is queued. *)
Definition queue_empty (g : Game) : Prop := queue g = [].

(** The arena has [n] rows. *)
Definition board_rows (n : nat) (g : Game) : Prop := length (arena g) = n.

(** A computation that cannot run out of fuel. *)
Definition no_spin {A : Type} (c : M A) : Prop := forall g, c g <> Spin.

(** The matrix has a filled cell in its row [i]. *)
Definition filled_row (m : Matrix) (i : nat) : Prop :=
  exists row, m !! i = Some row /\ existsb truthy row = true.

(** The score variables and the queue are as in [g0]. *)
Definition stats_as (g0 g : Game) : Prop :=
  score g = score g0 /\ level g = level g0 /\ cleared g = cleared g0 /\
  queue g = queue g0.

(** [c] run [n] times in a row, stopping at the first exception. *)
Fixpoint repeatM (n : nat) (c : M unit) : M unit :=
  match n with
  | O => ret tt
  | S n' => c ;;; repeatM n' c
  end.

(** The lock sequences, as they stand in the collision branch of
    [playerDrop] and in the collision branch of the hard-drop loop, after
    the vertical step has been taken back. *)
Definition lock_soft : M unit :=
  merge ;;;
  playCue CueLock ;;;
  clearLines ;;;
  modify (put_matrix None) ;;;
  showPadOverlay false ;;;
  spawnNext.
Definition lock_hard : M unit :=
  merge ;;;
  clearLines ;;;
  spawnNext.

(** ** Sample states used by the examples below *)

(** The booted game after the T piece has been drawn and recognised. *)
Definition boot_T : Game :=
  set_padOverlay true (add_cue CueSummon
    (set_player (createPiece pT) boot)).


(** A board whose second row is filled except for its last column, so that
    every piece collides where it spawns. *)
Definition blocked_arena : Arena :=
  <[1%nat := replicate 9 (Some pO) ++ [None]]> createMatrix.
Definition blocked : Game :=
  set_stats 740 3 21 (set_queue [pT] (set_arena blocked_arena boot)).

(** A level-2 board whose bottom row is full and whose row above holds
    two locked cells. *)
Definition one_line_arena : Arena :=
  <[19%nat := replicate 10 (Some pI)]>
    (<[18%nat := [Some pT; Some pT] ++ replicate 8 None]> createMatrix).
Definition one_line : Game :=
  set_stats 120 2 13 (set_arena one_line_arena boot).

(** What [onLinesCleared(n)] leaves in the score variables. *)
Definition scored (n : Z) (g : Game) : Game :=
  set_stats (score g + points_for n * level g)
            (if cleared g + n >=? level g * 10 then level g + 1 else level g)
            (cleared g + n) g.

(** The booted game after a T piece was recognised and turned once. *)
Definition boot_T_turned : Game :=
  kick_state boot_T (rotateMatrix (shape0 pT)) 3.

(** ** Further notions: cells, boards, triples *)

(** [m[i][j]] is truthy. *)
Definition filled (m : Matrix) (i j : nat) : bool :=
  match m !! i with
  | Some r => match r !! j with
              | Some v => truthy v
              | None => false
              end
  | None => false
  end.

(** The board position [(ay, ax)] is outside [[0,ROWS) x [0,COLS)] or holds
    a locked cell. *)
Definition hits (a : Arena) (ay ax : Z) : bool :=
  (ay <? 0) || (ay >=? ROWS) || (ax <? 0) || (ax >=? COLS) ||
  match a !! Z.to_nat ay with
  | Some r => occupied (r !! Z.to_nat ax)
  | None => false
  end.

(** [arena[ay][ax]] for a position inside the array. *)
Definition cell_at (a : Arena) (ay ax : nat) : option Cell :=
  match a !! ay with
  | Some r => r !! ax
  | None => None
  end.

(** A board of [ROWS] rows of [COLS] cells. *)
Definition board (a : Arena) : Prop :=
  length a = Z.to_nat ROWS /\ Forall (fun r => length r = Z.to_nat COLS) a.

(** What holds of the running game between events: the board is 20 by 10;
    a piece in play is one of the tabulated orientations of its type and
    lies on free cells inside the board; with no piece in play the pad
    overlay is hidden. *)
Definition sound (g : Game) : Prop :=
  board (arena g) /\
  (forall m, matrix (player g) = Some m ->
     collide (arena g) (player g) = Normal false /\
     exists code, type (player g) = Some code /\ m ∈ SHAPES code) /\
  (matrix (player g) = None -> padOverlay g = false).

(** A handler run that returned normally in a sound state. *)
Definition ends_sound (o : outcome unit) : Prop :=
  exists g', o = Done tt g' /\ sound g'.

(** Since the state [g0] the score variables have not gone down, the
    level is at least 1 and nothing is queued. *)
Definition stats_ge (g0 g : Game) : Prop :=
  score g0 <= score g /\ level g0 <= level g /\ cleared g0 <= cleared g /\
  1 <= level g /\ queue g = [].

(** The events of the drawing pad; all others are keys, buttons and
    frames. *)
Definition pad_event (e : Event) : bool :=
  match e with
  | PadReleased _ | PadResumed _ => true
  | _ => false
  end.

(** ** The arg-max of [predictPad] and [updateTable] *)

Section Argmax.
Variable T : Type.
(** [gt p q] is the test [p > q] on the numbers of the classifier. *)
Variable gt : T -> T -> bool.

(** [let best=0; for(let i=1;i<probs.length;i++) if(probs[i]>probs[best])
    best=i;] *)
Definition argmax (probs : list T) : nat :=
  foldl (fun best i =>
           match probs !! i, probs !! best with
           | Some p, Some q => if gt p q then i else best
           | _, _ => best
           end)
        0%nat (seq 1 (length probs - 1)).

(** [PIECE_CODES[best]], the value [predictPad] returns. *)
Definition predicted (probs : list T) : option PieceCode :=
  PIECE_CODES !! argmax probs.
End Argmax.

(** ** The monad: basic facts *)

Lemma bind_done {A B : Type} (c : M A) (k : A -> M B) g a g' :
  c g = Done a g' -> bind c k g = k a g'.
Proof. intros H. unfold bind. now rewrite H. Qed.

Lemma bind_raised {A B : Type} (c : M A) (k : A -> M B) g e g' :
  c g = Raised e g' -> bind c k g = Raised e g'.
Proof. intros H. unfold bind. now rewrite H. Qed.

Lemma bind_modify {B : Type} (f : Game -> Game) (k : unit -> M B) g :
  bind (modify f) k g = k tt (f g).
Proof. reflexivity. Qed.

Lemma bind_get {B : Type} (k : Game -> M B) g : bind get k g = k g g.
Proof. reflexivity. Qed.

Lemma bind_ret {A B : Type} (a : A) (k : A -> M B) g : bind (ret a) k g = k a g.
Proof. reflexivity. Qed.

Lemma bind_assoc {A B C : Type} (c : M A) (k : A -> M B) (h : B -> M C) g :
  bind (bind c k) h g = bind c (fun a => bind (k a) h) g.
Proof. unfold bind. destruct (c g); reflexivity. Qed.

(** ** Collision never raises on a board of [ROWS] rows *)

Lemma collide_row_total (a : Arena) p y row x :
  (Z.to_nat ROWS <= length a)%nat ->
  exists b, collide_row a p y row x = Normal b.
Proof.
  intros Hlen. revert x. induction row as [|v row IH]; intros x; simpl.
  - now exists false.
  - destruct (truthy v); [|apply IH].
    destruct (_ || _) eqn:Hout; [now exists true|].
    repeat (apply orb_false_elim in Hout; destruct Hout as [Hout ?]).
    destruct (a !! Z.to_nat (y + Pos.y p)) as [r|] eqn:Hr.
    + destruct (occupied _); [now exists true | apply IH].
    + apply lookup_ge_None in Hr. lia.
Qed.

Lemma collide_rows_total (a : Arena) p m y :
  (Z.to_nat ROWS <= length a)%nat ->
  exists b, collide_rows a p m y = Normal b.
Proof.
  intros Hlen. revert y. induction m as [|row m IH]; intros y; simpl.
  - now exists false.
  - destruct (collide_row_total a p y row 0 Hlen) as [[] ->].
    + now exists true.
    + apply IH.
Qed.

Lemma collide_total (a : Arena) (pl : Player) m :
  (Z.to_nat ROWS <= length a)%nat -> matrix pl = Some m ->
  exists b, collide a pl = Normal b.
Proof.
  intros Hlen Hm. unfold collide. rewrite Hm. now apply collide_rows_total.
Qed.

Lemma collideM_normal g b :
  collide (arena g) (player g) = Normal b -> collideM g = Done b g.
Proof. intros H. unfold collideM. now rewrite H. Qed.

(** ** Commands while no piece is in play *)

Lemma collide_idle (a : Arena) (pl : Player) :
  matrix pl = None -> collide a pl = Abrupt TypeError.
Proof. intros H. unfold collide. now rewrite H. Qed.

Lemma isPieceActive_false g : isPieceActive g = false -> matrix (player g) = None.
Proof. unfold isPieceActive. now destruct (matrix (player g)). Qed.

Lemma isPieceActive_true g :
  isPieceActive g = true -> exists m, matrix (player g) = Some m.
Proof. unfold isPieceActive. destruct (matrix (player g)); [eauto | discriminate]. Qed.

(** [playerDrop], the hard drop and [playerRotate] test [player.matrix]
    first and return at once when it is [null]. *)
Lemma playerDrop_idle g : isPieceActive g = false -> playerDrop g = Done tt g.
Proof. intros H. unfold playerDrop. rewrite bind_get. now rewrite H. Qed.

Lemma hardDrop_idle fuel g : isPieceActive g = false -> hardDrop fuel g = Done tt g.
Proof. intros H. unfold hardDrop. rewrite bind_get. now rewrite H. Qed.

Lemma playerRotate_idle g : isPieceActive g = false -> playerRotate g = Done tt g.
Proof.
  intros H. apply isPieceActive_false in H.
  unfold playerRotate. rewrite bind_get. now rewrite H.
Qed.

(** [playerMove] has no such test: it shifts [pos.x] and then [collide]
    dereferences the [null] matrix. *)
Lemma playerMove_idle g dir :
  isPieceActive g = false ->
  playerMove dir g = Raised TypeError (shift_x dir g).
Proof.
  intros H. apply isPieceActive_false in H.
  unfold playerMove. rewrite bind_modify.
  apply bind_raised. unfold collideM.
  rewrite collide_idle; [reflexivity | exact H].
Qed.

(** C3 (the code at the failing input). Right after boot no piece is in
    play; the move-left and move-right commands nevertheless change
    [player.pos.x] (3 becomes 2, respectively 4) and end in an uncaught
    [TypeError], whereas soft drop, hard drop and rotate return normally
    and leave the state as it was. *)
Theorem playerMove_idle_raises :
  isPieceActive boot = false /\
  playerMove (-1) boot = Raised TypeError (shift_x (-1) boot) /\
  playerMove 1 boot = Raised TypeError (shift_x 1 boot) /\
  Pos.x (pos (player boot)) = 3 /\
  Pos.x (pos (player (shift_x (-1) boot))) = 2 /\
  Pos.x (pos (player (shift_x 1 boot))) = 4 /\
  playerDrop boot = Done tt boot /\
  (forall fuel, hardDrop fuel boot = Done tt boot) /\
  playerRotate boot = Done tt boot.
Proof.
  assert (Hidle : isPieceActive boot = false) by reflexivity.
  repeat split;
    auto using playerMove_idle, playerDrop_idle, playerRotate_idle, hardDrop_idle.
Qed.

(** ** Spawning *)

Lemma getNextCode_empty g : queue g = [] -> getNextCode g = Done None g.
Proof. intros H. unfold getNextCode. now rewrite H. Qed.

Lemma getNextCode_front g code q :
  queue g = code :: q -> getNextCode g = Done (Some code) (set_queue q g).
Proof. intros H. unfold getNextCode. now rewrite H. Qed.

Lemma spawnNext_empty g :
  queue g = [] -> spawnNext g = Done tt (set_padOverlay false (put_matrix None g)).
Proof.
  intros H. unfold spawnNext. now rewrite (bind_done _ _ _ _ _ (getNextCode_empty g H)).
Qed.

Lemma spawnNext_front g code q :
  queue g = code :: q ->
  spawnNext g =
    (let! hit := collideM in
     (if hit then gameOverReset else ret tt) ;;; showPadOverlay true) (spawned code q g).
Proof.
  intros H. unfold spawnNext.
  now rewrite (bind_done _ _ _ _ _ (getNextCode_front g code q H)).
Qed.

Lemma spawnNext_front_final g code q :
  queue g = code :: q ->
  exists g', final (spawnNext g) = Some g' /\
             player g' = createPiece code /\ queue g' = q.
Proof.
  intros H. rewrite (spawnNext_front g code q H).
  unfold bind, collideM.
  destruct (collide _ _) as [[]|e]; simpl; eauto.
Qed.

(** With [ROWS] rows on the board no spawn raises. *)
Lemma spawnNext_returns g :
  (Z.to_nat ROWS <= length (arena g))%nat ->
  exists g', spawnNext g = Done tt g'.
Proof.
  intros Hlen. destruct (queue g) as [|code q] eqn:Hq.
  - rewrite spawnNext_empty by exact Hq. eauto.
  - rewrite (spawnNext_front g code q Hq).
    destruct (collide_total (arena (spawned code q g)) (player (spawned code q g))
                (shape0 code) Hlen eq_refl) as [b Hb].
    rewrite (bind_done _ _ _ _ _ (collideM_normal _ _ Hb)).
    destruct b; simpl; eauto.
Qed.

Lemma onPadReleased_active g c : isPieceActive g = true -> onPadReleased c g = Done tt g.
Proof. intros H. unfold onPadReleased. rewrite bind_get. now rewrite H. Qed.

(** C1 (counterexample). With the T piece in play and nothing queued,
    [spawnNext] is not a no-op: it returns with [player.matrix] set to
    [null], so the active piece is gone. *)
Lemma spawnNext_active_not_noop :
  isPieceActive boot_T = true /\
  exists g', spawnNext boot_T = Done tt g' /\
             matrix (player boot_T) = Some (shape0 pT) /\
             matrix (player g') = None /\
             g' <> boot_T.
Proof.
  split; [reflexivity|].
  eexists. split; [reflexivity|].
  split; [reflexivity|]. split; [reflexivity|]. discriminate.
Qed.

(** C1 (amended). [spawnNext] carries no test of [player.matrix]. Called
    while a piece is in play with an empty queue it only deactivates the
    piece: [player.matrix] becomes [null] and the overlay is hidden, while
    position, rotation index, type, queue, arena and score state stay as
    they were. With a non-empty queue it pops the front code and replaces
    the piece in play by the new one at (3,0) with rotation index 0. The
    guard sits in the caller: [onPadReleased] returns at once, changing
    nothing, while a piece is in play. *)
Theorem spawnNext_while_active g :
  isPieceActive g = true ->
  (queue g = [] ->
     exists g', spawnNext g = Done tt g' /\
       matrix (player g') = None /\ padOverlay g' = false /\
       pos (player g') = pos (player g) /\ rot (player g') = rot (player g) /\
       type (player g') = type (player g) /\
       queue g' = queue g /\ arena g' = arena g /\
       score g' = score g /\ level g' = level g /\ cleared g' = cleared g) /\
  (forall code q, queue g = code :: q ->
     exists g', final (spawnNext g) = Some g' /\
       player g' = createPiece code /\ queue g' = q) /\
  (forall c, onPadReleased c g = Done tt g).
Proof.
  intros Hact. split; [|split].
  - intros Hq. rewrite spawnNext_empty by exact Hq.
    eexists. split; [reflexivity|]. now repeat split.
  - intros code q Hq. now apply spawnNext_front_final.
  - intros c. now apply onPadReleased_active.
Qed.

Lemma spawnNext_while_active_witness :
  isPieceActive boot_T = true /\
  (forall c, onPadReleased c boot_T = Done tt boot_T).
Proof.
  split; [reflexivity|].
  apply (spawnNext_while_active boot_T). reflexivity.
Defined.

(** The insertion done by [onPadReleased] is at the front of [queue]. *)
Lemma onPadReleased_resume_unshift g code :
  onPadReleased_resume (Some code) g =
    (spawnNext ;;; renderBoard) (set_queue (code :: queue g) g).
Proof. reflexivity. Qed.

(** The sibling [enqueuePredictedPiece] pushes at the back. *)
Lemma enqueuePredictedPiece_push g code :
  enqueuePredictedPiece code g =
    (let! g' := get in (if isPieceActive g' then ret tt else spawnNext) ;;; renderSide)
      (set_queue (queue g ++ [code]) g).
Proof. reflexivity. Qed.


(** The reset leaves every arena cell [null] and keeps the grid's shape. *)
Lemma gameOverReset_arena (a : Arena) :
  Forall (Forall (fun c : Cell => c = None))
         (map (fun r : list Cell => replicate (length r) (@None PieceCode)) a) /\
  map length (map (fun r : list Cell => replicate (length r) (@None PieceCode)) a) = map length a.
Proof.
  split.
  - apply Forall_forall. intros r Hr. apply list_elem_of_fmap in Hr as (r0 & -> & _).
    apply Forall_forall. intros c Hc. now apply elem_of_replicate in Hc.
  - induction a as [|r a IH]; simpl; [reflexivity|].
    now rewrite length_replicate, IH.
Qed.

(** C4 (counterexample). On a board whose second row blocks the spawn
    position, with score 740, level 3 and 21 lines, spawning the queued T
    piece resets the game: the level afterwards is 1, not 0. *)
Lemma spawnNext_reset_level_not_zero :
  collide (arena blocked) (createPiece pT) = Normal true /\
  level blocked = 3 /\
  exists g', spawnNext blocked = Done tt g' /\ level g' = 1 /\ level g' <> 0.
Proof.
  split; [reflexivity|]. split; [reflexivity|].
  eexists. split; [vm_compute; reflexivity|]. split; [reflexivity|]. discriminate.
Qed.

(** C4 (amended). If the piece taken from the queue collides at its spawn
    offset (3,0), [spawnNext] returns normally after a full reset: every
    arena cell is [null] (the grid keeps its shape), score and cleared
    lines are 0 and the level is back at its initial value 1; the new
    piece is in play and the queue has lost its front. *)
Theorem spawnNext_collision_resets g code q :
  queue g = code :: q ->
  collide (arena g) (createPiece code) = Normal true ->
  exists g', spawnNext g = Done tt g' /\
    Forall (Forall (fun c : Cell => c = None)) (arena g') /\
    map length (arena g') = map length (arena g) /\
    score g' = 0 /\ level g' = 1 /\ cleared g' = 0 /\
    player g' = createPiece code /\ queue g' = q.
Proof.
  intros Hq Hhit. rewrite (spawnNext_front g code q Hq).
  assert (Hc : collideM (spawned code q g) = Done true (spawned code q g))
    by (apply collideM_normal; exact Hhit).
  rewrite (bind_done _ _ _ _ _ Hc).
  eexists. split; [reflexivity|]. simpl.
  destruct (gameOverReset_arena (arena g)) as [H1 H2].
  now repeat split.
Qed.

Lemma spawnNext_collision_resets_witness :
  exists g', spawnNext blocked = Done tt g' /\
    Forall (Forall (fun c : Cell => c = None)) (arena g') /\
    map length (arena g') = map length (arena blocked) /\
    score g' = 0 /\ level g' = 1 /\ cleared g' = 0 /\
    player g' = createPiece pT /\ queue g' = [].
Proof.
  apply (spawnNext_collision_resets blocked pT []); reflexivity.
Defined.

(** ** Rotation with wall kicks *)

Lemma put_x_put_x a b g : put_x a (put_x b g) = put_x a g.
Proof. reflexivity. Qed.

Lemma put_x_same g : put_x (Pos.x (pos (player g))) g = g.
Proof. destruct g as [a [[px py] m r t] q s l c d pa gr po cu]. reflexivity. Qed.

Lemma kick_state_undo g rotated x :
  put_matrix (matrix (player g)) (kick_state g rotated x) = put_x x g.
Proof. reflexivity. Qed.

Lemma kick_state_arena g rotated x : arena (kick_state g rotated x) = arena g.
Proof. reflexivity. Qed.

(** One turn of the kick loop, started from any column [x0]. *)
Lemma playerRotate_kicks_cons g rotated oldX k ks x0 :
  playerRotate_kicks rotated oldX (k :: ks) (put_x x0 g) =
    match collide (arena g) (player (kick_state g rotated (oldX + k))) with
    | Normal false => Done true (kick_state g rotated (oldX + k))
    | Normal true => playerRotate_kicks rotated oldX ks (put_x (oldX + k) g)
    | Abrupt e => Raised e (kick_state g rotated (oldX + k))
    end.
Proof.
  simpl. rewrite bind_modify, bind_get, bind_modify.
  unfold bind, collideM.
  change (put_matrix (Some rotated) (put_x (oldX + k) (put_x x0 g)))
    with (kick_state g rotated (oldX + k)).
  rewrite kick_state_arena.
  destruct (collide _ _) as [[]|e]; reflexivity.
Qed.

Lemma playerRotate_kicks_accept g rotated oldX pre k post x0 :
  (forall k', In k' pre ->
     collide (arena g) (player (kick_state g rotated (oldX + k'))) = Normal true) ->
  collide (arena g) (player (kick_state g rotated (oldX + k))) = Normal false ->
  playerRotate_kicks rotated oldX (pre ++ k :: post) (put_x x0 g) =
    Done true (kick_state g rotated (oldX + k)).
Proof.
  revert x0. induction pre as [|k0 pre IH]; intros x0 Hpre Hk.
  - simpl app. rewrite playerRotate_kicks_cons. now rewrite Hk.
  - simpl app. rewrite playerRotate_kicks_cons.
    rewrite (Hpre k0) by now left.
    apply IH; [|exact Hk]. intros k' Hin. apply Hpre. now right.
Qed.

Lemma playerRotate_kicks_reject g rotated oldX ks x0 :
  (forall k, In k ks ->
     collide (arena g) (player (kick_state g rotated (oldX + k))) = Normal true) ->
  exists x', playerRotate_kicks rotated oldX ks (put_x x0 g) = Done false (put_x x' g).
Proof.
  revert x0. induction ks as [|k ks IH]; intros x0 Hall.
  - exists x0. reflexivity.
  - rewrite playerRotate_kicks_cons. rewrite (Hall k) by now left.
    apply IH. intros k' Hin. apply Hall. now right.
Qed.

Lemma playerRotate_kicks_total g m rotated oldX ks x0 :
  matrix (player g) = Some m ->
  (Z.to_nat ROWS <= length (arena g))%nat ->
  exists b g', playerRotate_kicks rotated oldX ks (put_x x0 g) = Done b g'.
Proof.
  intros Hm Hlen. revert x0. induction ks as [|k ks IH]; intros x0.
  - simpl. unfold ret. eauto.
  - rewrite playerRotate_kicks_cons.
    destruct (collide_total (arena g) (player (kick_state g rotated (oldX + k)))
                rotated Hlen eq_refl) as [[] ->]; eauto.
Qed.

Lemma playerRotate_unfold g m :
  matrix (player g) = Some m ->
  playerRotate g =
    (let! returned := playerRotate_kicks (rotateMatrix m) (Pos.x (pos (player g))) kicks in
     if returned then ret tt
     else modify (put_x (Pos.x (pos (player g)))) ;;; renderBoard)
      (put_x (Pos.x (pos (player g))) g).
Proof.
  intros Hm. unfold playerRotate. rewrite bind_get, Hm. now rewrite put_x_same.
Qed.

(** C6. [playerRotate] on a piece in play tries the columns [oldX + k] for
    [k] in [0, 1, -1, 2, -2], in that order, with the rotated matrix. The
    first kick that does not collide is accepted: the piece gets the
    rotated matrix and that column, nothing else changes. If all five
    collide the state after the call is the state before it. In either
    case the call returns normally. *)
Theorem playerRotate_wall_kicks g m :
  matrix (player g) = Some m ->
  (Z.to_nat ROWS <= length (arena g))%nat ->
  let rotated := rotateMatrix m in
  let oldX := Pos.x (pos (player g)) in
  let try := fun k => collide (arena g) (player (kick_state g rotated (oldX + k))) in
  kicks = [0; 1; -1; 2; -2] /\
  (forall pre k post,
      kicks = pre ++ k :: post ->
      (forall k', In k' pre -> try k' = Normal true) ->
      try k = Normal false ->
      playerRotate g = Done tt (kick_state g rotated (oldX + k))) /\
  ((forall k, In k kicks -> try k = Normal true) -> playerRotate g = Done tt g) /\
  (forall k, exists b, try k = Normal b) /\
  (exists g', playerRotate g = Done tt g').
Proof.
  intros Hm Hlen rotated oldX try.
  split; [reflexivity|]. split; [|split; [|split]].
  - intros pre k post Hk Hpre Hfree.
    rewrite (playerRotate_unfold g m Hm). fold rotated oldX. rewrite Hk.
    erewrite bind_done; [|apply playerRotate_kicks_accept; eassumption].
    reflexivity.
  - intros Hall.
    rewrite (playerRotate_unfold g m Hm). fold rotated oldX.
    destruct (playerRotate_kicks_reject g rotated oldX kicks oldX Hall) as [x' Hx'].
    rewrite (bind_done _ _ _ _ _ Hx'). rewrite bind_modify.
    rewrite put_x_put_x. unfold oldX. now rewrite put_x_same.
  - intros k. apply (collide_total _ _ rotated); [exact Hlen | reflexivity].
  - rewrite (playerRotate_unfold g m Hm). fold rotated oldX.
    destruct (playerRotate_kicks_total g m rotated oldX kicks oldX Hm Hlen)
      as (b & g' & Hb).
    rewrite (bind_done _ _ _ _ _ Hb). destruct b; simpl; eauto.
Qed.

Lemma playerRotate_wall_kicks_witness :
  playerRotate boot_T = Done tt (kick_state boot_T (rotateMatrix (shape0 pT)) 3).
Proof.
  destruct (playerRotate_wall_kicks boot_T (shape0 pT) eq_refl (le_n 20))
    as (_ & Haccept & _).
  apply (Haccept [] 0 [1; -1; 2; -2]); [reflexivity | intros k' [] | reflexivity].
Defined.

(** ** The quarter turn *)

Lemma matrix_set_length ret x c v : length (matrix_set ret x c v) = length ret.
Proof.
  unfold matrix_set. destruct (ret !! x); [apply length_insert | reflexivity].
Qed.

Lemma matrix_set_rows (N : nat) ret x c v :
  Forall (fun r : list Z => length r = N) ret ->
  Forall (fun r : list Z => length r = N) (matrix_set ret x c v).
Proof.
  intros Hrows. unfold matrix_set. destruct (ret !! x) as [r|] eqn:Hr; [|exact Hrows].
  apply Forall_insert; [exact Hrows|].
  rewrite length_insert. exact (Forall_lookup_1 _ ret x r Hrows Hr).
Qed.

Lemma matrix_get_set (N : nat) ret x c v i j :
  length ret = N -> Forall (fun r : list Z => length r = N) ret ->
  (x < N)%nat -> (c < N)%nat ->
  matrix_get (matrix_set ret x c v) i j =
    if decide (i = x /\ j = c) then v else matrix_get ret i j.
Proof.
  intros Hlen Hrows Hx Hc. unfold matrix_set, matrix_get.
  destruct (ret !! x) as [r|] eqn:Hr.
  2:{ apply lookup_ge_None in Hr. lia. }
  assert (Hr' : length r = N) by exact (Forall_lookup_1 _ ret x r Hrows Hr).
  destruct (decide (i = x)) as [->|Hix].
  - rewrite list_lookup_insert_eq by lia. rewrite Hr.
    destruct (decide (j = c)) as [->|Hjc].
    + rewrite list_lookup_insert_eq by lia.
      rewrite decide_True by tauto. reflexivity.
    + rewrite list_lookup_insert_ne by congruence.
      rewrite decide_False by tauto. reflexivity.
  - rewrite list_lookup_insert_ne by congruence.
    rewrite decide_False by tauto. reflexivity.
Qed.

(** The inner loop writes column [c] of the rows listed in [xs]. *)
Lemma rotate_inner (N : nat) (f : nat -> Z) c xs : forall ret,
  length ret = N -> Forall (fun r : list Z => length r = N) ret ->
  (c < N)%nat -> Forall (fun x => (x < N)%nat) xs ->
  let res := foldl (fun ret x => matrix_set ret x c (f x)) ret xs in
  length res = N /\ Forall (fun r : list Z => length r = N) res /\
  forall i j, matrix_get res i j =
              if decide (j = c /\ i ∈ xs) then f i else matrix_get ret i j.
Proof.
  induction xs as [|x xs IH]; intros ret Hlen Hrows Hc Hxs; cbn [foldl].
  - split; [assumption|]. split; [assumption|]. intros i j.
    destruct (decide _) as [[_ Hin]|]; [inversion Hin | reflexivity].
  - apply Forall_cons in Hxs as [Hx Hxs].
    destruct (IH (matrix_set ret x c (f x))) as (H1 & H2 & H3); try assumption.
    + now rewrite matrix_set_length.
    + now apply matrix_set_rows.
    + split; [assumption|]. split; [assumption|]. intros i j. rewrite H3.
      rewrite (matrix_get_set N) by assumption.
      destruct (decide (j = c /\ i ∈ xs)) as [[-> Hin]|Hno].
      * rewrite decide_True; [reflexivity|]. split; [reflexivity|]. now right.
      * destruct (decide (i = x /\ j = c)) as [[-> ->]|Hno'].
        -- rewrite decide_True; [reflexivity|]. split; [reflexivity|]. now left.
        -- rewrite decide_False; [reflexivity|].
           intros [-> Hin]. apply elem_of_cons in Hin as [->|Hin]; tauto.
Qed.

(** The outer loop writes, for every [y] in [ys], column [N-1-y] from row
    [y] of the source. *)
Lemma rotate_outer (N : nat) (m : Matrix) ys : forall ret,
  length ret = N -> Forall (fun r : list Z => length r = N) ret ->
  Forall (fun y => (y < N)%nat) ys ->
  let res := foldl (fun ret y =>
                      foldl (fun ret x => matrix_set ret x (N - 1 - y)%nat (matrix_get m y x))
                            ret (seq 0 N)) ret ys in
  length res = N /\ Forall (fun r : list Z => length r = N) res /\
  forall i j, (i < N)%nat -> (j < N)%nat ->
              matrix_get res i j =
                if decide ((N - 1 - j)%nat ∈ ys) then matrix_get m (N - 1 - j) i
                else matrix_get ret i j.
Proof.
  induction ys as [|y ys IH]; intros ret Hlen Hrows Hys; cbn [foldl].
  - split; [assumption|]. split; [assumption|]. intros i j _ _.
    destruct (decide _) as [Hin|]; [inversion Hin | reflexivity].
  - apply Forall_cons in Hys as [Hy Hys].
    destruct (rotate_inner N (matrix_get m y) (N - 1 - y)%nat (seq 0 N) ret)
      as (I1 & I2 & I3); try assumption; try lia.
    { apply Forall_forall. intros x Hx. apply elem_of_seq in Hx. lia. }
    destruct (IH _ I1 I2 Hys) as (H1 & H2 & H3).
    split; [assumption|]. split; [assumption|]. intros i j Hi Hj. rewrite (H3 i j Hi Hj), I3.
    destruct (decide ((N - 1 - j)%nat ∈ ys)) as [Hin|Hno].
    + rewrite decide_True; [reflexivity|]. now right.
    + destruct (decide (j = (N - 1 - y)%nat /\ i ∈ seq 0 N)) as [[-> _]|Hno'].
      * replace (N - 1 - (N - 1 - y))%nat with y by lia.
        rewrite decide_True; [reflexivity|]. now left.
      * rewrite decide_False; [reflexivity|].
        intros Hin. apply elem_of_cons in Hin as [Heq|Hin]; [|tauto].
        apply Hno'. split; [lia|]. apply elem_of_seq. lia.
Qed.

Lemma replicate_rows (N : nat) :
  Forall (fun r : list Z => length r = N) (replicate N (replicate N 0)).
Proof.
  apply Forall_forall. intros r Hr. apply elem_of_replicate in Hr as [-> _].
  apply length_replicate.
Qed.

(** [rotateMatrix] returns an N-by-N matrix whose entry [(i, j)] is entry
    [(N-1-j, i)] of its argument. *)
Lemma rotateMatrix_spec (m : Matrix) :
  length (rotateMatrix m) = length m /\
  Forall (fun r : list Z => length r = length m) (rotateMatrix m) /\
  forall i j, (i < length m)%nat -> (j < length m)%nat ->
              matrix_get (rotateMatrix m) i j = matrix_get m (length m - 1 - j) i.
Proof.
  unfold rotateMatrix.
  destruct (rotate_outer (length m) m (seq 0 (length m))
              (replicate (length m) (replicate (length m) 0)))
    as (H1 & H2 & H3).
  - apply length_replicate.
  - apply replicate_rows.
  - apply Forall_forall. intros y Hy. apply elem_of_seq in Hy. lia.
  - split; [assumption|]. split; [assumption|]. intros i j Hi Hj. rewrite (H3 i j Hi Hj).
    rewrite decide_True; [reflexivity|]. apply elem_of_seq. lia.
Qed.

Lemma rotateMatrix_length m : length (rotateMatrix m) = length m.
Proof. apply rotateMatrix_spec. Qed.

Lemma rotateMatrix_square m : square (rotateMatrix m).
Proof.
  unfold square. rewrite rotateMatrix_length. apply rotateMatrix_spec.
Qed.

(** Two square matrices of one size with the same entries are equal. *)
Lemma matrix_ext (m1 m2 : Matrix) :
  length m1 = length m2 -> square m1 -> square m2 ->
  (forall i j, (i < length m1)%nat -> (j < length m1)%nat ->
               matrix_get m1 i j = matrix_get m2 i j) ->
  m1 = m2.
Proof.
  intros Hlen Hs1 Hs2 Hget. apply list_eq. intros i.
  destruct (m1 !! i) as [r1|] eqn:H1.
  - assert (Hi : (i < length m1)%nat) by (eapply lookup_lt_Some; eassumption).
    destruct (m2 !! i) as [r2|] eqn:H2.
    2:{ apply lookup_ge_None in H2. lia. }
    f_equal.
    assert (L1 : length r1 = length m1) by exact (Forall_lookup_1 _ m1 i r1 Hs1 H1).
    assert (L2 : length r2 = length m2) by exact (Forall_lookup_1 _ m2 i r2 Hs2 H2).
    apply list_eq. intros j.
    destruct (r1 !! j) as [v1|] eqn:J1.
    + assert (Hj : (j < length m1)%nat) by (apply lookup_lt_Some in J1; lia).
      destruct (r2 !! j) as [v2|] eqn:J2.
      2:{ apply lookup_ge_None in J2. lia. }
      specialize (Hget i j Hi Hj). unfold matrix_get in Hget.
      rewrite H1, H2, J1, J2 in Hget. simpl in Hget. now subst.
    + apply lookup_ge_None in J1. symmetry. apply lookup_ge_None. lia.
  - apply lookup_ge_None in H1. symmetry. apply lookup_ge_None. lia.
Qed.

(** Four quarter turns of a square matrix give the matrix back. *)
Lemma rotateMatrix_four (m : Matrix) :
  square m -> rotateMatrix (rotateMatrix (rotateMatrix (rotateMatrix m))) = m.
Proof.
  intros Hsq.
  assert (L1 := rotateMatrix_length m).
  assert (L2 := rotateMatrix_length (rotateMatrix m)).
  assert (L3 := rotateMatrix_length (rotateMatrix (rotateMatrix m))).
  assert (L4 := rotateMatrix_length (rotateMatrix (rotateMatrix (rotateMatrix m)))).
  apply matrix_ext.
  - congruence.
  - apply rotateMatrix_square.
  - exact Hsq.
  - rewrite L4, L3, L2, L1. intros i j Hi Hj.
    destruct (rotateMatrix_spec (rotateMatrix (rotateMatrix (rotateMatrix m))))
      as (_ & _ & ->); [|lia|lia].
    destruct (rotateMatrix_spec (rotateMatrix (rotateMatrix m)))
      as (_ & _ & ->); [|lia|lia].
    destruct (rotateMatrix_spec (rotateMatrix m)) as (_ & _ & ->); [|lia|lia].
    destruct (rotateMatrix_spec m) as (_ & _ & ->); [|lia|lia].
    rewrite L3, L2, L1. f_equal; lia.
Qed.

Lemma SHAPES_square code m : m ∈ SHAPES code -> square m.
Proof.
  intros Hin. destruct code; simpl in Hin;
    repeat (apply elem_of_cons in Hin as [->|Hin];
            [unfold square; simpl; repeat constructor|]);
    inversion Hin.
Qed.

Lemma iter_rotate_square n m : square m -> square (iter n rotateMatrix m).
Proof. intros Hsq. destruct n; simpl; [exact Hsq | apply rotateMatrix_square]. Qed.

(** C9. Every orientation of every piece -- the four matrices tabulated in
    [SHAPES] and every matrix obtained from the spawn shape by any number
    of quarter turns -- is given back entry for entry by four applications
    of [rotateMatrix]. *)
Theorem rotateMatrix_four_times (code : PieceCode) :
  (forall m, m ∈ SHAPES code ->
     rotateMatrix (rotateMatrix (rotateMatrix (rotateMatrix m))) = m) /\
  (forall n, let m := iter n rotateMatrix (shape0 code) in
     rotateMatrix (rotateMatrix (rotateMatrix (rotateMatrix m))) = m).
Proof.
  split.
  - intros m Hin. apply rotateMatrix_four. now apply (SHAPES_square code).
  - intros n m. apply rotateMatrix_four. apply iter_rotate_square.
    apply (SHAPES_square code). destruct code; now left.
Qed.

Lemma rotateMatrix_four_times_witness :
  let m := [[0; 1; 0]; [0; 1; 1]; [0; 1; 0]] in
  m ∈ SHAPES pT /\ rotateMatrix (rotateMatrix (rotateMatrix (rotateMatrix m))) = m.
Proof.
  assert (Hin : [[0; 1; 0]; [0; 1; 1]; [0; 1; 0]] ∈ SHAPES pT)
    by (right; left).
  split; [exact Hin|].
  exact (proj1 (rotateMatrix_four_times pT) _ Hin).
Defined.

(** ** Line clearing *)

Lemma set_arena_same g : set_arena (arena g) g = g.
Proof. now destruct g. Qed.

Lemma set_arena_twice a b g : set_arena a (set_arena b g) = set_arena a g.
Proof. reflexivity. Qed.

(** A blanked row is never full ([COLS] is positive). *)
Lemma row_full_blank (r : list Cell) : row_full (blank_row r) = false.
Proof. unfold row_full, blank_row. now destruct (length r). Qed.

Lemma full_rows_app a b : full_rows (a ++ b) = full_rows a ++ full_rows b.
Proof. apply filter_app. Qed.

Lemma kept_rows_app a b : kept_rows (a ++ b) = kept_rows a ++ kept_rows b.
Proof. apply filter_app. Qed.

Lemma full_rows_cons r a :
  full_rows (r :: a) = if row_full r then r :: full_rows a else full_rows a.
Proof.
  unfold full_rows. rewrite filter_cons.
  destruct (row_full r); [now rewrite decide_True | now rewrite decide_False].
Qed.

Lemma kept_rows_cons r a :
  kept_rows (r :: a) = if row_full r then kept_rows a else r :: kept_rows a.
Proof.
  unfold kept_rows. rewrite filter_cons.
  destruct (row_full r); [now rewrite decide_False | now rewrite decide_True].
Qed.

Lemma full_kept_length a : (length (full_rows a) + length (kept_rows a) = length a)%nat.
Proof.
  induction a as [|r a IH]; [reflexivity|].
  rewrite full_rows_cons, kept_rows_cons. destruct (row_full r); simpl; lia.
Qed.

(** The loop, entered at the last row of [pre] with the rows of [suf]
    already visited, removes the full rows of [pre], stacks their blanked
    copies on top and counts them. *)
Lemma clearLines_loop_spec fuel : forall pre suf lines g,
  arena g = pre ++ suf ->
  (length pre + length (full_rows pre) < fuel)%nat ->
  clearLines_loop fuel (Z.of_nat (length pre) - 1) lines g =
    Done (lines + Z.of_nat (length (full_rows pre)))
         (set_arena (map blank_row (full_rows pre) ++ kept_rows pre ++ suf) g).
Proof.
  induction fuel as [|fuel IH]; intros pre suf lines g Ha Hfuel; [lia|].
  destruct pre as [|r0 pre0] using rev_ind.
  - simpl. unfold ret. rewrite Z.add_0_r. simpl in Ha. now rewrite <- Ha, set_arena_same.
  - clear IHpre0. rename pre0 into pre, r0 into r.
    rewrite length_app in *. simpl length in *.
    rewrite full_rows_app, kept_rows_app, full_rows_cons, kept_rows_cons in *.
    cbn [clearLines_loop].
    replace (Z.of_nat (length pre + 1) - 1 >=? 0) with true
      by (symmetry; apply Z.geb_le; lia).
    rewrite bind_get.
    replace (Z.to_nat (Z.of_nat (length pre + 1) - 1)) with (length pre) by lia.
    rewrite <- app_assoc in Ha. simpl in Ha.
    rewrite Ha, list_lookup_middle by reflexivity.
    destruct (row_full r) eqn:Hfull.
    + rewrite bind_modify, delete_middle.
      replace (Z.of_nat (length pre + 1) - 1 + 1 - 1)
        with (Z.of_nat (length (blank_row r :: pre)) - 1) by (simpl length; lia).
      rewrite (IH (blank_row r :: pre) suf).
      * rewrite full_rows_cons, kept_rows_cons, row_full_blank, set_arena_twice.
        simpl full_rows in *. rewrite length_app in *. simpl length in *.
        rewrite app_nil_r, map_app. simpl map. rewrite <- !app_assoc. simpl.
        f_equal. lia.
      * reflexivity.
      * rewrite full_rows_cons, row_full_blank.
        simpl full_rows in *. rewrite length_app in *. simpl length in *. lia.
    + replace (Z.of_nat (length pre + 1) - 1 - 1) with (Z.of_nat (length pre) - 1) by lia.
      rewrite (IH pre (r :: suf)).
      * simpl full_rows in *. rewrite !app_nil_r in *.
        rewrite <- !app_assoc. reflexivity.
      * exact Ha.
      * simpl full_rows in *. rewrite !app_nil_r in *. lia.
Qed.

(** On a board of [ROWS] rows the loop of [clearLines] returns the number
    of full rows and leaves the compacted board. *)
Lemma clearLines_loop_board g :
  length (arena g) = Z.to_nat ROWS ->
  clearLines_loop clearLines_fuel (ROWS - 1) 0 g =
    Done (Z.of_nat (length (full_rows (arena g))))
         (set_arena (map blank_row (full_rows (arena g)) ++ kept_rows (arena g)) g).
Proof.
  intros Hlen.
  replace (ROWS - 1) with (Z.of_nat (length (arena g)) - 1) by (rewrite Hlen; reflexivity).
  rewrite (clearLines_loop_spec clearLines_fuel (arena g) [] 0 g).
  - now rewrite app_nil_r.
  - now rewrite app_nil_r.
  - pose proof (full_kept_length (arena g)). rewrite Hlen in *.
    change clearLines_fuel with 41%nat. change (Z.to_nat ROWS) with 20%nat in *. lia.
Qed.

Lemma onLinesCleared_scored n g : onLinesCleared n g = Done tt (scored n g).
Proof. reflexivity. Qed.

(** [clearLines] on a board of [ROWS] rows: the board is compacted, and
    when at least one row went the line cue is played and the score
    variables are updated. *)
Lemma clearLines_board g :
  length (arena g) = Z.to_nat ROWS ->
  let k := Z.of_nat (length (full_rows (arena g))) in
  let g1 := set_arena (map blank_row (full_rows (arena g)) ++ kept_rows (arena g)) g in
  clearLines g = Done tt (if k >? 0 then scored k (add_cue CueLine g1) else g1).
Proof.
  intros Hlen k g1. unfold clearLines.
  rewrite (bind_done _ _ _ _ _ (clearLines_loop_board g Hlen)).
  fold k g1. destruct (k >? 0); reflexivity.
Qed.

Lemma blank_rows_replicate (n : nat) (a : Arena) :
  Forall (fun r => length r = n) a ->
  map blank_row a = replicate (length a) (replicate n None).
Proof.
  induction 1 as [|r a Hr _ IH]; [reflexivity|].
  simpl. unfold blank_row at 1. now rewrite Hr, IH.
Qed.

Lemma full_rows_Forall (P : list Cell -> Prop) (a : Arena) :
  Forall P a -> Forall P (full_rows a).
Proof.
  induction 1 as [|r a Hr _ IH]; [constructor|].
  rewrite full_rows_cons. destruct (row_full r); [now constructor | exact IH].
Qed.

(** On a row of [COLS] cells the test of [clearLines] says that every cell
    holds a piece code. *)
Lemma row_full_all_occupied (r : list Cell) :
  length r = Z.to_nat COLS -> (row_full r = true <-> Forall is_Some r).
Proof.
  intros Hlen. unfold row_full. rewrite forallb_forall. split.
  - intros Hall. apply Forall_lookup. intros i c Hi.
    assert (Hlt : (i < length r)%nat) by (eapply lookup_lt_Some; eassumption).
    specialize (Hall i). rewrite Hi in Hall.
    destruct c as [c|]; [now exists c|].
    assert (Hin : In i (seq 0 (Z.to_nat COLS))) by (apply in_seq; lia).
    specialize (Hall Hin). discriminate.
  - intros Hall i Hin. apply in_seq in Hin.
    destruct (r !! i) as [c|] eqn:Hi.
    + destruct (Forall_lookup_1 _ r i c Hall Hi) as [c' ->]. reflexivity.
    + apply lookup_ge_None in Hi. lia.
Qed.

(** Where a row that is kept ends up: it moves down by the number of full
    rows below it. *)
Lemma kept_row_position (a : Arena) i r :
  a !! i = Some r -> row_full r = false ->
  (map blank_row (full_rows a) ++ kept_rows a)
    !! (i + length (full_rows (drop (S i) a)))%nat = Some r.
Proof.
  intros Hi Hr.
  assert (Hlt : (i < length a)%nat) by (eapply lookup_lt_Some; eassumption).
  pose proof (take_drop_middle a i r Hi) as Hsplit.
  pose proof (full_kept_length (take i a)) as Hsum.
  rewrite length_take in Hsum.
  remember (take i a) as tk. remember (drop (S i) a) as dr.
  rewrite <- Hsplit.
  rewrite full_rows_app, kept_rows_app, full_rows_cons, kept_rows_cons, Hr.
  rewrite map_app, (app_assoc _ (kept_rows tk)).
  apply list_lookup_middle.
  rewrite !length_app, !length_map. lia.
Qed.

(** C7. On an arena of 20 rows by 10 columns [clearLines] returns
    normally; the rows it removes are exactly the full ones, that is the
    rows with all 10 cells occupied; the new arena is one blank row per
    removed row on top of the kept rows in their old order, so it still has
    20 rows; and every kept row has moved down by exactly the number of
    full rows that were below it (none, when no row below it was full). *)
Theorem clearLines_compacts g :
  length (arena g) = Z.to_nat ROWS ->
  Forall (fun r => length r = Z.to_nat COLS) (arena g) ->
  exists g', clearLines g = Done tt g' /\
    (forall r, r ∈ arena g -> (row_full r = true <-> Forall is_Some r)) /\
    arena g' = replicate (length (full_rows (arena g)))
                         (replicate (Z.to_nat COLS) None)
               ++ kept_rows (arena g) /\
    length (arena g') = Z.to_nat ROWS /\
    (forall i r, arena g !! i = Some r -> row_full r = false ->
       arena g' !! (i + length (full_rows (drop (S i) (arena g))))%nat = Some r) /\
    (forall i r, arena g !! i = Some r -> full_rows (drop i (arena g)) = [] ->
       arena g' !! i = Some r).
Proof.
  intros Hlen Hcols.
  pose proof (clearLines_board g Hlen) as Hrun. cbv zeta in Hrun.
  set (a' := map blank_row (full_rows (arena g)) ++ kept_rows (arena g)) in *.
  assert (Hkeep : forall i r, arena g !! i = Some r -> row_full r = false ->
            a' !! (i + length (full_rows (drop (S i) (arena g))))%nat = Some r)
    by (intros i r; apply kept_row_position).
  eexists. split; [exact Hrun|].
  assert (Ha' : arena (if Z.of_nat (length (full_rows (arena g))) >? 0
                       then scored (Z.of_nat (length (full_rows (arena g))))
                                   (add_cue CueLine (set_arena a' g))
                       else set_arena a' g) = a')
    by (destruct (_ >? 0); reflexivity).
  rewrite Ha'. split; [|split; [|split; [|split]]].
  - intros r Hr. apply row_full_all_occupied.
    revert r Hr. now apply Forall_forall.
  - unfold a'. f_equal.
    rewrite (blank_rows_replicate (Z.to_nat COLS)); [now rewrite length_map || reflexivity|].
    now apply full_rows_Forall.
  - unfold a'. rewrite length_app, length_map.
    pose proof (full_kept_length (arena g)). lia.
  - exact Hkeep.
  - intros i r Hi Hnone.
    rewrite <- (take_drop_middle (arena g) i r Hi) in Hnone at 1.
    rewrite drop_app_length' in Hnone
      by (rewrite length_take; apply lookup_lt_Some in Hi; lia).
    rewrite full_rows_cons in Hnone.
    destruct (row_full r) eqn:Hr; [discriminate|].
    specialize (Hkeep i r Hi Hr). rewrite Hnone in Hkeep. simpl in Hkeep.
    now rewrite Nat.add_0_r in Hkeep.
Qed.

Lemma clearLines_compacts_witness :
  exists g', clearLines one_line = Done tt g' /\
    arena g' !! 19%nat = Some ([Some pT; Some pT] ++ replicate 8 None) /\
    arena g' !! 0%nat = Some (replicate 10 None).
Proof.
  destruct (clearLines_compacts one_line) as (g' & Hrun & _ & Ha & _ & Hkeep & _).
  - reflexivity.
  - vm_compute. repeat constructor.
  - exists g'. split; [exact Hrun|]. split.
    + apply (Hkeep 18%nat); reflexivity.
    + rewrite Ha. reflexivity.
Defined.

(** C8. One lock event on a board of 20 rows, at level [L >= 1], with [n]
    full rows: for [n] in 1..4 the score grows by exactly
    [[0,40,100,300,1200][n] * L] (the level before any increment) and the
    cleared-lines total grows by [n]; for [n = 0] the score, the total and
    the level are unchanged. *)
Theorem clearLines_scores g n :
  length (arena g) = Z.to_nat ROWS ->
  1 <= level g ->
  n = Z.of_nat (length (full_rows (arena g))) ->
  exists g', clearLines g = Done tt g' /\
    (n = 0 -> score g' = score g /\ cleared g' = cleared g /\ level g' = level g) /\
    (1 <= n <= 4 ->
       score g' = score g + nth (Z.to_nat n) [0; 40; 100; 300; 1200] 0 * level g /\
       cleared g' = cleared g + n) /\
    (n = 1 -> score g' = score g + 40 * level g) /\
    (n = 2 -> score g' = score g + 100 * level g) /\
    (n = 3 -> score g' = score g + 300 * level g) /\
    (n = 4 -> score g' = score g + 1200 * level g).
Proof.
  intros Hlen _ ->.
  pose proof (clearLines_board g Hlen) as Hrun. cbv zeta in Hrun.
  set (k := Z.of_nat (length (full_rows (arena g)))) in *.
  eexists. split; [exact Hrun|].
  assert (Hrange : forall v, 1 <= k <= 4 -> v = k ->
            score g + points_for v * level g =
            score g + nth (Z.to_nat v) [0; 40; 100; 300; 1200] 0 * level g).
  { intros v Hk ->.
    assert (Hcases : k = 1 \/ k = 2 \/ k = 3 \/ k = 4) by lia.
    destruct Hcases as [-> | [-> | [-> | ->]]]; reflexivity. }
  destruct (k >? 0) eqn:Hpos.
  - apply Z.gtb_lt in Hpos. simpl.
    split; [lia|]. split; [intros Hk; split; [now apply Hrange | reflexivity]|].
    repeat split; intros ->; reflexivity.
  - assert (Hle : k <= 0) by (destruct (Z.gtb_spec k 0); [discriminate | lia]).
    simpl. split; [now repeat split|]. split; [lia|].
    repeat split; lia.
Qed.

Lemma clearLines_scores_witness :
  exists g', clearLines one_line = Done tt g' /\ score g' = 120 + 40 * 2.
Proof.
  destruct (clearLines_scores one_line 1) as (g' & Hrun & _ & _ & Hone & _).
  - reflexivity.
  - vm_compute. discriminate.
  - reflexivity.
  - exists g'. split; [exact Hrun|]. now apply Hone.
Defined.

(** ** The rotation index *)

Section Preservation.
Variable P : Game -> Prop.

Lemma preserves_ret {A : Type} (a : A) : preserves P (ret a).
Proof. intros g Hg. exact Hg. Qed.

Lemma preserves_get : preserves P get.
Proof. intros g Hg. exact Hg. Qed.

Lemma preserves_throw {A : Type} e : preserves P (@throw A e).
Proof. intros g Hg. exact Hg. Qed.

Lemma preserves_spin {A : Type} : preserves P (@spin A).
Proof. intros g Hg. exact I. Qed.

Lemma preserves_modify f : (forall g, P g -> P (f g)) -> preserves P (modify f).
Proof. intros Hf g Hg. now apply Hf. Qed.

Lemma preserves_bind {A B : Type} (c : M A) (k : A -> M B) :
  preserves P c -> (forall a, preserves P (k a)) -> preserves P (bind c k).
Proof.
  intros Hc Hk g Hg. unfold bind. specialize (Hc g Hg).
  destruct (c g) as [a g'| |]; [now apply Hk | exact Hc | exact I].
Qed.

Lemma preserves_collideM : preserves P collideM.
Proof.
  intros g Hg. unfold collideM. destruct (collide _ _); exact Hg.
Qed.

Lemma preserves_forEachM {A : Type} (f : A -> Z -> M unit) l :
  (forall v i, preserves P (f v i)) -> forall i, preserves P (forEachM f l i).
Proof.
  intros Hf. induction l as [|v l IH]; intros i; simpl.
  - apply preserves_ret.
  - apply preserves_bind; [apply Hf | intros _; apply IH].
Qed.
End Preservation.

(** One step of a preservation proof: split a [bind], discharge a
    primitive, or split on the tested value; [tac] proves that the function
    of a [modify] keeps the predicate. *)
Ltac pres_step tac :=
  lazymatch goal with
  | |- preserves _ (bind _ _) => apply preserves_bind; [|intros ?]
  | |- preserves _ (ret _) => apply preserves_ret
  | |- preserves _ get => apply preserves_get
  | |- preserves _ (throw _) => apply preserves_throw
  | |- preserves _ spin => apply preserves_spin
  | |- preserves _ collideM => apply preserves_collideM
  | |- preserves _ (modify _) => apply preserves_modify; tac
  | |- preserves _ (if ?b then _ else _) => destruct b
  | |- preserves _ (match ?x with _ => _ end) => destruct x
  end.

(** For [rot_kept]: a [modify] either leaves [player.rot] alone or stores 0
    in it. *)
Ltac rot_modify :=
  let g := fresh "g" in
  let H := fresh "H" in
  intros g [H|H]; first [left; exact H | right; exact H | right; reflexivity].
Ltac rot_step := pres_step rot_modify.

Create HintDb rot discriminated.

Ltac rot_solve := repeat first [rot_step | solve [auto with rot]].

Lemma rot_arena_write r ay ax t : preserves (rot_kept r) (arena_write ay ax t).
Proof.
  intros g Hg. unfold arena_write.
  destruct (ay <? 0); [exact Hg|]. destruct (arena g !! Z.to_nat ay); exact Hg.
Qed.
#[local] Hint Resolve rot_arena_write : rot.

Lemma rot_merge r : preserves (rot_kept r) merge.
Proof.
  unfold merge. rot_step; [rot_step|]. rot_step; [|rot_step].
  apply preserves_forEachM. intros row y.
  apply preserves_forEachM. intros v x. rot_solve.
Qed.
#[local] Hint Resolve rot_merge : rot.

Lemma rot_clearLines_loop r fuel : forall y lines,
  preserves (rot_kept r) (clearLines_loop fuel y lines).
Proof.
  induction fuel as [|fuel IH]; intros y lines; simpl; rot_solve.
Qed.
#[local] Hint Resolve rot_clearLines_loop : rot.

Lemma rot_clearLines r : preserves (rot_kept r) clearLines.
Proof. unfold clearLines, playCue, onLinesCleared. rot_solve. Qed.
#[local] Hint Resolve rot_clearLines : rot.

Lemma rot_getNextCode r : preserves (rot_kept r) getNextCode.
Proof. intros g Hg. unfold getNextCode. destruct (queue g); exact Hg. Qed.
#[local] Hint Resolve rot_getNextCode : rot.

Lemma rot_spawnNext r : preserves (rot_kept r) spawnNext.
Proof. unfold spawnNext, showPadOverlay, gameOverReset. rot_solve. Qed.
#[local] Hint Resolve rot_spawnNext : rot.

Lemma rot_playerDrop r : preserves (rot_kept r) playerDrop.
Proof. unfold playerDrop, playCue, showPadOverlay, renderBoard. rot_solve. Qed.
#[local] Hint Resolve rot_playerDrop : rot.

Lemma rot_playerMove r dir : preserves (rot_kept r) (playerMove dir).
Proof. unfold playerMove, renderBoard. rot_solve. Qed.

Lemma rot_playerRotate_kicks r rotated oldX ks :
  preserves (rot_kept r) (playerRotate_kicks rotated oldX ks).
Proof. induction ks as [|k ks IH]; simpl; rot_solve. Qed.
#[local] Hint Resolve rot_playerRotate_kicks : rot.

Lemma rot_playerRotate r : preserves (rot_kept r) playerRotate.
Proof. unfold playerRotate, renderBoard. rot_solve. Qed.
#[local] Hint Resolve rot_playerRotate : rot.

Lemma rot_hardDrop_loop r fuel : preserves (rot_kept r) (hardDrop_loop fuel).
Proof. induction fuel as [|fuel IH]; simpl; rot_solve. Qed.
#[local] Hint Resolve rot_hardDrop_loop : rot.

Lemma rot_hardDrop r fuel : preserves (rot_kept r) (hardDrop fuel).
Proof. unfold hardDrop, renderBoard. rot_solve. Qed.

Lemma rot_onPadReleased_resume r c : preserves (rot_kept r) (onPadReleased_resume c).
Proof.
  unfold onPadReleased_resume, resetPad, renderBoard, showPadOverlay. rot_solve.
Qed.
#[local] Hint Resolve rot_onPadReleased_resume : rot.

Lemma rot_onPadReleased r c : preserves (rot_kept r) (onPadReleased c).
Proof. unfold onPadReleased, playCue, showPadOverlay. rot_solve. Qed.

Lemma rot_update r delta : preserves (rot_kept r) (update delta).
Proof. unfold update, renderBoard. rot_solve. Qed.

(** The two spawn paths outside the event handlers keep it too. *)
Lemma rot_summonPieceNow r code : preserves (rot_kept r) (summonPieceNow code).
Proof.
  unfold summonPieceNow, showPadOverlay, gameOverReset, renderSide. rot_solve.
Qed.

Lemma rot_enqueuePredictedPiece r code :
  preserves (rot_kept r) (enqueuePredictedPiece code).
Proof. unfold enqueuePredictedPiece, renderSide. rot_solve. Qed.

(** No handler stores anything but 0 in [player.rot]. *)
Lemma rot_handle r e : preserves (rot_kept r) (handle e).
Proof.
  destruct e; simpl;
    auto using rot_playerMove, rot_hardDrop, rot_onPadReleased, rot_update with rot.
  - rot_solve.
  - unfold holdPiece. rot_solve.
  - rot_solve.
Qed.

Lemma step_rot g g' : step g g' -> rot_kept (rot (player g)) g'.
Proof.
  intros [e g0 g1 Hfin].
  pose proof (rot_handle (rot (player g0)) e g0 (or_introl eq_refl)) as Hpres.
  destruct (handle e g0) as [a g2|err g2|]; simpl in Hfin; [| |discriminate];
    injection Hfin as <-; exact Hpres.
Qed.

(** A successful rotation changes the matrix and leaves the index alone. *)
Lemma playerRotate_keeps_rot :
  playerRotate boot_T = Done tt boot_T_turned /\
  matrix (player boot_T_turned) = SHAPES pT !! 1%nat /\
  matrix (player boot_T_turned) <> SHAPES pT !! 0%nat /\
  rot (player boot_T_turned) = 0.
Proof.
  split; [vm_compute; reflexivity|]. split; [reflexivity|].
  split; [discriminate | reflexivity].
Qed.

Lemma boot_T_turned_reachable : reachable boot_T_turned.
Proof.
  apply (reachable_step boot_T).
  - apply (reachable_step boot); [apply reachable_boot|].
    apply (step_event (PadReleased (Some pT))). reflexivity.
  - apply (step_event KeyArrowUp). vm_compute. reflexivity.
Qed.

(** C10. In every state the game can reach from boot through its event
    handlers, the rotation index stored in [player.rot] is 0: spawning
    stores 0 and nothing else writes the field, a successful rotation
    included. *)
Theorem rot_always_zero g : reachable g -> rot (player g) = 0.
Proof.
  induction 1 as [|g g' _ IH Hstep]; [reflexivity|].
  apply step_rot in Hstep. rewrite IH in Hstep. now destruct Hstep.
Qed.

Lemma rot_always_zero_witness :
  rot (player boot_T_turned) = 0 /\
  matrix (player boot_T_turned) = SHAPES pT !! 1%nat.
Proof.
  split; [|reflexivity].
  apply (rot_always_zero boot_T_turned).
  apply (reachable_step boot_T).
  - apply (reachable_step boot); [apply reachable_boot|].
    apply (step_event (PadReleased (Some pT))). reflexivity.
  - apply (step_event KeyArrowUp). reflexivity.
Defined.

(** ** The queue and the board between events *)

(** A predicate that holds at boot and is kept by every handler holds in
    every reachable state. *)
Lemma step_preserves (P : Game -> Prop) g g' :
  (forall e, preserves P (handle e)) -> step g g' -> P g -> P g'.
Proof.
  intros Hall [e g0 g1 Hfin] Hg0. specialize (Hall e g0 Hg0).
  destruct (handle e g0) as [a g2|err g2|]; simpl in Hfin; [| |discriminate];
    injection Hfin as <-; exact Hall.
Qed.

Lemma reachable_invariant (P : Game -> Prop) :
  P boot -> (forall e, preserves P (handle e)) -> forall g, reachable g -> P g.
Proof.
  intros Hboot Hall g Hg. induction Hg as [|g g' _ IH Hstep]; [exact Hboot|].
  exact (step_preserves P g g' Hall Hstep IH).
Qed.

Ltac same_modify :=
  let g := fresh "g" in
  let H := fresh "H" in
  intros g H; exact H.

Create HintDb que discriminated.
Ltac que_solve := repeat first [pres_step same_modify | solve [auto with que]].

Lemma que_arena_write ay ax t : preserves queue_empty (arena_write ay ax t).
Proof.
  intros g Hg. unfold arena_write.
  destruct (ay <? 0); [exact Hg|]. destruct (arena g !! Z.to_nat ay); exact Hg.
Qed.
#[local] Hint Resolve que_arena_write : que.

Lemma que_merge : preserves queue_empty merge.
Proof.
  unfold merge. pres_step same_modify; [que_solve|].
  pres_step same_modify; [|que_solve].
  apply preserves_forEachM. intros row y.
  apply preserves_forEachM. intros v x. que_solve.
Qed.
#[local] Hint Resolve que_merge : que.

Lemma que_clearLines_loop fuel : forall y lines,
  preserves queue_empty (clearLines_loop fuel y lines).
Proof. induction fuel as [|fuel IH]; intros y lines; simpl; que_solve. Qed.
#[local] Hint Resolve que_clearLines_loop : que.

Lemma que_clearLines : preserves queue_empty clearLines.
Proof. unfold clearLines, playCue, onLinesCleared. que_solve. Qed.
#[local] Hint Resolve que_clearLines : que.

Lemma que_getNextCode : preserves queue_empty getNextCode.
Proof. intros g Hg. unfold getNextCode. rewrite Hg. exact Hg. Qed.
#[local] Hint Resolve que_getNextCode : que.

Lemma que_spawnNext : preserves queue_empty spawnNext.
Proof. unfold spawnNext, showPadOverlay, gameOverReset. que_solve. Qed.
#[local] Hint Resolve que_spawnNext : que.

Lemma que_playerDrop : preserves queue_empty playerDrop.
Proof. unfold playerDrop, playCue, showPadOverlay, renderBoard. que_solve. Qed.
#[local] Hint Resolve que_playerDrop : que.

Lemma que_playerMove dir : preserves queue_empty (playerMove dir).
Proof. unfold playerMove, renderBoard. que_solve. Qed.

Lemma que_playerRotate_kicks rotated oldX ks :
  preserves queue_empty (playerRotate_kicks rotated oldX ks).
Proof. induction ks as [|k ks IH]; simpl; que_solve. Qed.
#[local] Hint Resolve que_playerRotate_kicks : que.

Lemma que_playerRotate : preserves queue_empty playerRotate.
Proof. unfold playerRotate, renderBoard. que_solve. Qed.
#[local] Hint Resolve que_playerRotate : que.

Lemma que_hardDrop_loop fuel : preserves queue_empty (hardDrop_loop fuel).
Proof. induction fuel as [|fuel IH]; simpl; que_solve. Qed.
#[local] Hint Resolve que_hardDrop_loop : que.

Lemma que_hardDrop fuel : preserves queue_empty (hardDrop fuel).
Proof. unfold hardDrop, renderBoard. que_solve. Qed.

(** The one insertion: the code put at the front of an empty queue is the
    code [spawnNext] takes out again. *)
Lemma que_onPadReleased_resume c : preserves queue_empty (onPadReleased_resume c).
Proof.
  destruct c as [code|]; [|unfold onPadReleased_resume, resetPad, showPadOverlay; que_solve].
  intros g Hg. rewrite onPadReleased_resume_unshift.
  unfold queue_empty in Hg. rewrite Hg.
  assert (Htail : preserves queue_empty
            ((let! hit := collideM in
              (if hit then gameOverReset else ret tt) ;;; showPadOverlay true) ;;;
             renderBoard))
    by (unfold gameOverReset, showPadOverlay, renderBoard; que_solve).
  specialize (Htail (spawned code [] (set_queue [code] g)) eq_refl).
  unfold bind at 1. rewrite (spawnNext_front _ code []) by reflexivity.
  exact Htail.
Qed.
#[local] Hint Resolve que_onPadReleased_resume : que.

Lemma que_onPadReleased c : preserves queue_empty (onPadReleased c).
Proof. unfold onPadReleased, playCue, showPadOverlay. que_solve. Qed.

Lemma que_update delta : preserves queue_empty (update delta).
Proof. unfold update, renderBoard. que_solve. Qed.

Lemma que_handle e : preserves queue_empty (handle e).
Proof.
  destruct e; simpl;
    auto using que_playerMove, que_hardDrop, que_onPadReleased, que_update with que.
  - que_solve.
  - unfold holdPiece. que_solve.
  - que_solve.
Qed.

(** Between two events the queue of the running game is empty: the only
    insertion is followed at once by the spawn that consumes it. Front and
    back of the queue therefore coincide whenever a classification
    result is inserted. *)
Lemma queue_always_empty g : reachable g -> queue g = [].
Proof.
  apply (reachable_invariant queue_empty); [reflexivity | apply que_handle].
Qed.

Lemma insertion_front_is_back g code :
  reachable g -> code :: queue g = queue g ++ [code].
Proof. intros Hg. now rewrite (queue_always_empty g Hg). Qed.

Ltac len_modify :=
  let g := fresh "g" in
  let H := fresh "H" in
  intros g H;
  first [exact H | unfold board_rows; simpl; rewrite length_map; exact H].

Create HintDb len discriminated.
Ltac len_solve := repeat first [pres_step len_modify | solve [auto with len]].

Lemma len_arena_write n ay ax t : preserves (board_rows n) (arena_write ay ax t).
Proof.
  intros g Hg. unfold arena_write.
  destruct (ay <? 0); [exact Hg|].
  destruct (arena g !! Z.to_nat ay); [|exact Hg].
  unfold board_rows. simpl. now rewrite length_insert.
Qed.
#[local] Hint Resolve len_arena_write : len.

Lemma len_merge n : preserves (board_rows n) merge.
Proof.
  unfold merge. pres_step len_modify; [len_solve|].
  pres_step len_modify; [|len_solve].
  apply preserves_forEachM. intros row y.
  apply preserves_forEachM. intros v x. len_solve.
Qed.
#[local] Hint Resolve len_merge : len.

(** Splicing a row out and unshifting one keeps the number of rows. *)
Lemma len_clearLines_loop n fuel : forall y lines,
  preserves (board_rows n) (clearLines_loop fuel y lines).
Proof.
  induction fuel as [|fuel IH]; intros y lines g Hg; simpl; [exact I|].
  destruct (y >=? 0); [|exact Hg]. rewrite bind_get.
  destruct (arena g !! Z.to_nat y) as [row|] eqn:Hrow; [|exact Hg].
  destruct (row_full row); [|now apply IH].
  rewrite bind_modify. apply IH. unfold board_rows in *. simpl.
  rewrite length_delete by eauto. apply lookup_lt_Some in Hrow. lia.
Qed.
#[local] Hint Resolve len_clearLines_loop : len.

Lemma len_clearLines n : preserves (board_rows n) clearLines.
Proof. unfold clearLines, playCue, onLinesCleared. len_solve. Qed.
#[local] Hint Resolve len_clearLines : len.

Lemma len_getNextCode n : preserves (board_rows n) getNextCode.
Proof. intros g Hg. unfold getNextCode. destruct (queue g); exact Hg. Qed.
#[local] Hint Resolve len_getNextCode : len.

Lemma len_spawnNext n : preserves (board_rows n) spawnNext.
Proof. unfold spawnNext, showPadOverlay, gameOverReset. len_solve. Qed.
#[local] Hint Resolve len_spawnNext : len.

Lemma len_playerDrop n : preserves (board_rows n) playerDrop.
Proof. unfold playerDrop, playCue, showPadOverlay, renderBoard. len_solve. Qed.
#[local] Hint Resolve len_playerDrop : len.

Lemma len_playerMove n dir : preserves (board_rows n) (playerMove dir).
Proof. unfold playerMove, renderBoard. len_solve. Qed.

Lemma len_playerRotate_kicks n rotated oldX ks :
  preserves (board_rows n) (playerRotate_kicks rotated oldX ks).
Proof. induction ks as [|k ks IH]; simpl; len_solve. Qed.
#[local] Hint Resolve len_playerRotate_kicks : len.

Lemma len_playerRotate n : preserves (board_rows n) playerRotate.
Proof. unfold playerRotate, renderBoard. len_solve. Qed.
#[local] Hint Resolve len_playerRotate : len.

Lemma len_hardDrop_loop n fuel : preserves (board_rows n) (hardDrop_loop fuel).
Proof. induction fuel as [|fuel IH]; simpl; len_solve. Qed.
#[local] Hint Resolve len_hardDrop_loop : len.

Lemma len_hardDrop n fuel : preserves (board_rows n) (hardDrop fuel).
Proof. unfold hardDrop, renderBoard. len_solve. Qed.

Lemma len_onPadReleased_resume n c : preserves (board_rows n) (onPadReleased_resume c).
Proof.
  unfold onPadReleased_resume, resetPad, renderBoard, showPadOverlay. len_solve.
Qed.
#[local] Hint Resolve len_onPadReleased_resume : len.

Lemma len_onPadReleased n c : preserves (board_rows n) (onPadReleased c).
Proof. unfold onPadReleased, playCue, showPadOverlay. len_solve. Qed.

Lemma len_update n delta : preserves (board_rows n) (update delta).
Proof. unfold update, renderBoard. len_solve. Qed.

Lemma len_handle n e : preserves (board_rows n) (handle e).
Proof.
  destruct e; simpl;
    auto using len_playerMove, len_hardDrop, len_onPadReleased, len_update with len.
  - len_solve.
  - unfold holdPiece. len_solve.
  - len_solve.
Qed.

(** The running game always has [ROWS] rows on its board, so the
    hypotheses on the number of rows made above hold in every state the
    game reaches. *)
Lemma board_always_ROWS g : reachable g -> length (arena g) = Z.to_nat ROWS.
Proof.
  apply (reachable_invariant (board_rows (Z.to_nat ROWS)));
    [reflexivity | apply len_handle].
Qed.

(** ** Soft drop and hard drop *)

(** One vertical step of either drop on a piece in play. *)
Lemma playerDrop_step g :
  isPieceActive g = true ->
  playerDrop g =
    match collide (arena g) (player (shift_y 1 g)) with
    | Normal true =>
        (lock_soft ;;; modify (set_dropCounter 0) ;;; renderBoard)
          (shift_y (-1) (shift_y 1 g))
    | Normal false => Done tt (set_dropCounter 0 (shift_y 1 g))
    | Abrupt e => Raised e (shift_y 1 g)
    end.
Proof.
  intros Hact. unfold playerDrop. rewrite bind_get, Hact, bind_modify.
  unfold bind at 1. unfold collideM.
  change (arena (shift_y 1 g)) with (arena g).
  destruct (collide _ _) as [[]|e]; reflexivity.
Qed.

Lemma hardDrop_loop_step fuel g :
  hardDrop_loop (S fuel) g =
    match collide (arena g) (player (shift_y 1 g)) with
    | Normal true => lock_hard (shift_y (-1) (shift_y 1 g))
    | Normal false => hardDrop_loop fuel (shift_y 1 g)
    | Abrupt e => Raised e (shift_y 1 g)
    end.
Proof.
  cbn [hardDrop_loop]. rewrite bind_modify. unfold bind at 1. unfold collideM.
  change (arena (shift_y 1 g)) with (arena g).
  destruct (collide _ _) as [[]|e]; reflexivity.
Qed.

Lemma compacted_length (a : Arena) :
  length (map blank_row (full_rows a) ++ kept_rows a) = length a.
Proof. rewrite length_app, length_map. apply full_kept_length. Qed.

(** Closes a case of the comparison below, given the cues played after the
    merge by the hard drop. *)
Ltac lock_close line :=
  eexists _, _, line; split; [reflexivity|]; split; [reflexivity|]; simpl;
  repeat (split; [first [reflexivity | now rewrite <- app_assoc
                        | now rewrite app_nil_r]|]);
  simpl; intuition discriminate.

(** Once [merge] has returned on a board of [ROWS] rows, the two lock
    sequences end in states that agree on the arena, the player, the queue,
    the score variables and the overlay; their cue traces differ: the soft
    drop has played [lock] (before a possible [line]), the hard drop has
    not. *)
Lemma lock_hard_vs_soft g gm :
  merge g = Done tt gm ->
  length (arena gm) = Z.to_nat ROWS ->
  exists gh gs line,
    lock_hard g = Done tt gh /\ lock_soft g = Done tt gs /\
    arena gs = arena gh /\ player gs = player gh /\ queue gs = queue gh /\
    score gs = score gh /\ level gs = level gh /\ cleared gs = cleared gh /\
    padOverlay gs = padOverlay gh /\ dropCounter gs = dropCounter gh /\
    cues gh = cues gm ++ line /\ cues gs = cues gm ++ CueLock :: line /\
    ~ In CueLock line.
Proof.
  intros Hmerge Hlen. unfold lock_hard, lock_soft.
  rewrite !(bind_done _ _ _ _ _ Hmerge). unfold playCue at 1. rewrite bind_modify.
  rewrite (bind_done _ _ _ _ _ (clearLines_board gm Hlen)).
  rewrite (bind_done _ _ _ _ _ (clearLines_board (add_cue CueLock gm) Hlen)).
  rewrite bind_modify. unfold showPadOverlay at 1. rewrite bind_modify.
  change (arena (add_cue CueLock gm)) with (arena gm).
  set (a' := map blank_row (full_rows (arena gm)) ++ kept_rows (arena gm)).
  assert (Ha' : (Z.to_nat ROWS <= length a')%nat)
    by (unfold a'; rewrite compacted_length; lia).
  destruct (queue gm) as [|code q] eqn:Hq.
  - destruct (Z.of_nat (length (full_rows (arena gm))) >? 0);
      rewrite !spawnNext_empty by exact Hq;
      [lock_close [CueLine] | lock_close (@nil Cue)].
  - destruct (collide_total a' (createPiece code) (shape0 code) Ha' eq_refl) as [b Hb].
    assert (Hc : forall g0, arena g0 = a' ->
              collideM (spawned code q g0) = Done b (spawned code q g0)).
    { intros g0 Hg0. apply collideM_normal. simpl. now rewrite Hg0. }
    destruct (Z.of_nat (length (full_rows (arena gm))) >? 0);
      rewrite !(spawnNext_front _ code q) by exact Hq;
      (erewrite (bind_done collideM) by (apply Hc; reflexivity));
      (erewrite (bind_done collideM) by (apply Hc; reflexivity));
      destruct b; [lock_close [CueLine] | lock_close [CueLine]
                  | lock_close (@nil Cue) | lock_close (@nil Cue)].
Qed.

(** C5 (the code at the failing input). With the T piece in play at its
    spawn offset on an empty board, the hard drop and nineteen soft drops
    (eighteen free steps and the locking one) end with the same arena,
    player, queue, score variables and overlay, but the soft drop has
    played the [lock] cue and the hard drop has played none. *)
Theorem hardDrop_skips_lock_cue :
  isPieceActive boot_T = true /\
  exists gh gs,
    hardDrop 19 boot_T = Done tt gh /\
    repeatM 19 playerDrop boot_T = Done tt gs /\
    arena gs = arena gh /\ player gs = player gh /\ queue gs = queue gh /\
    score gs = score gh /\ level gs = level gh /\ cleared gs = cleared gh /\
    padOverlay gs = padOverlay gh /\
    isPieceActive gh = false /\
    arena gh <> arena boot_T /\
    cues gs = cues boot_T ++ [CueLock] /\
    cues gh = cues boot_T.
Proof.
  split; [reflexivity|].
  eexists _, _. split; [vm_compute; reflexivity|]. split; [vm_compute; reflexivity|].
  repeat (split; [reflexivity|]).
  split; [discriminate | split; reflexivity].
Qed.

(** ** The hard drop ends *)

Lemma no_spin_ret {A : Type} (a : A) : no_spin (ret a).
Proof. intros g. discriminate. Qed.

Lemma no_spin_get : no_spin get.
Proof. intros g. discriminate. Qed.

Lemma no_spin_throw {A : Type} e : no_spin (@throw A e).
Proof. intros g. discriminate. Qed.

Lemma no_spin_modify f : no_spin (modify f).
Proof. intros g. discriminate. Qed.

Lemma no_spin_collideM : no_spin collideM.
Proof. intros g. unfold collideM. destruct (collide _ _); discriminate. Qed.

Lemma no_spin_bind {A B : Type} (c : M A) (k : A -> M B) :
  no_spin c -> (forall a, no_spin (k a)) -> no_spin (bind c k).
Proof.
  intros Hc Hk g. unfold bind. specialize (Hc g).
  destruct (c g) as [a g'| |]; [apply Hk | discriminate | contradiction].
Qed.

Lemma no_spin_forEachM {A : Type} (f : A -> Z -> M unit) l :
  (forall v i, no_spin (f v i)) -> forall i, no_spin (forEachM f l i).
Proof.
  intros Hf. induction l as [|v l IH]; intros i; simpl.
  - apply no_spin_ret.
  - apply no_spin_bind; [apply Hf | intros _; apply IH].
Qed.

Create HintDb spin discriminated.
#[local] Hint Resolve no_spin_ret no_spin_get no_spin_throw no_spin_modify
  no_spin_collideM : spin.

Ltac spin_step :=
  lazymatch goal with
  | |- no_spin (bind _ _) => apply no_spin_bind; [|intros ?]
  | |- no_spin (if ?b then _ else _) => destruct b
  | |- no_spin (match ?x with _ => _ end) => destruct x
  end.
Ltac spin_solve := repeat first [spin_step | solve [auto with spin]].

Lemma no_spin_arena_write ay ax t : no_spin (arena_write ay ax t).
Proof.
  intros g. unfold arena_write.
  destruct (ay <? 0); [discriminate|].
  destruct (arena g !! Z.to_nat ay); discriminate.
Qed.
#[local] Hint Resolve no_spin_arena_write : spin.

Lemma no_spin_merge : no_spin merge.
Proof.
  unfold merge. spin_step; [spin_solve|]. spin_step; [|spin_solve].
  apply no_spin_forEachM. intros row y.
  apply no_spin_forEachM. intros v x. spin_solve.
Qed.
#[local] Hint Resolve no_spin_merge : spin.

(** The fuel given to the loop of [clearLines] is never used up, whatever
    the board. *)
Lemma no_spin_clearLines_loop :
  no_spin (clearLines_loop clearLines_fuel (ROWS - 1) 0).
Proof.
  intros g.
  destruct (decide (Z.to_nat ROWS <= length (arena g))%nat) as [Hge|Hlt].
  - pose proof (take_drop (Z.to_nat ROWS) (arena g)) as Hsplit.
    assert (Hlen : length (take (Z.to_nat ROWS) (arena g)) = Z.to_nat ROWS)
      by (rewrite length_take; lia).
    replace (ROWS - 1)
      with (Z.of_nat (length (take (Z.to_nat ROWS) (arena g))) - 1)
      by (rewrite Hlen; reflexivity).
    rewrite (clearLines_loop_spec clearLines_fuel _ (drop (Z.to_nat ROWS) (arena g)) 0 g).
    + discriminate.
    + now rewrite Hsplit.
    + pose proof (full_kept_length (take (Z.to_nat ROWS) (arena g))) as Hsum.
      rewrite Hlen in *. change clearLines_fuel with 41%nat.
      change (Z.to_nat ROWS) with 20%nat in *. lia.
  - change clearLines_fuel with (S 40). generalize 40%nat. intros fuel.
    cbn [clearLines_loop].
    change (ROWS - 1 >=? 0) with true. cbv iota. rewrite bind_get.
    rewrite (proj2 (lookup_ge_None (arena g) (Z.to_nat (ROWS - 1)))).
    + discriminate.
    + change (Z.to_nat (ROWS - 1)) with 19%nat.
      change (Z.to_nat ROWS) with 20%nat in Hlt. lia.
Qed.
#[local] Hint Resolve no_spin_clearLines_loop : spin.

Lemma no_spin_clearLines : no_spin clearLines.
Proof. unfold clearLines, playCue, onLinesCleared. spin_solve. Qed.
#[local] Hint Resolve no_spin_clearLines : spin.

Lemma no_spin_spawnNext : no_spin spawnNext.
Proof.
  unfold spawnNext, showPadOverlay, gameOverReset.
  spin_step; [|spin_solve].
  intros g. unfold getNextCode. destruct (queue g); discriminate.
Qed.
#[local] Hint Resolve no_spin_spawnNext : spin.

Lemma no_spin_lock_hard : no_spin lock_hard.
Proof. unfold lock_hard. spin_solve. Qed.

(** A row of the matrix that [collide] passes without returning lies above
    the floor when it holds a filled cell. *)
Lemma collide_row_free a p y row x :
  collide_row a p y row x = Normal false ->
  existsb truthy row = true -> y + Pos.y p < ROWS.
Proof.
  revert x. induction row as [|v row IH]; intros x Hfree Hfilled; simpl in *.
  - discriminate.
  - destruct (truthy v); [|now apply (IH (x + 1))].
    destruct (_ || _) eqn:Hout; [discriminate|].
    repeat (apply orb_false_elim in Hout; destruct Hout as [Hout ?]). lia.
Qed.

Lemma collide_rows_free a p m : forall y0 i,
  collide_rows a p m y0 = Normal false ->
  filled_row m i -> y0 + Z.of_nat i + Pos.y p < ROWS.
Proof.
  induction m as [|row0 m IH]; intros y0 i Hfree (row & Hi & Hfilled).
  - discriminate.
  - simpl in Hfree.
    destruct (collide_row a p y0 row0 0) as [[]|e] eqn:Hrow; try discriminate.
    destruct i as [|i]; simpl in Hi.
    + injection Hi as ->. pose proof (collide_row_free _ _ _ _ _ Hrow Hfilled). lia.
    + assert (Hi' : filled_row m i) by (exists row; auto).
      pose proof (IH (y0 + 1) i Hfree Hi'). lia.
Qed.

(** The loop of the hard drop needs at most one turn per row between the
    piece and the floor. *)
Lemma hardDrop_loop_ends fuel : forall g m i,
  matrix (player g) = Some m -> filled_row m i ->
  ROWS - Pos.y (pos (player g)) - Z.of_nat i <= Z.of_nat fuel -> (0 < fuel)%nat ->
  hardDrop_loop fuel g <> Spin.
Proof.
  induction fuel as [|fuel IH]; intros g m i Hm Hfilled Hbound Hpos; [lia|].
  rewrite hardDrop_loop_step.
  destruct (collide (arena g) (player (shift_y 1 g))) as [[]|e] eqn:Hhit.
  - apply no_spin_lock_hard.
  - unfold collide in Hhit. simpl in Hhit. rewrite Hm in Hhit.
    pose proof (collide_rows_free _ _ _ 0 i Hhit Hfilled) as Hfree. simpl in Hfree.
    apply (IH (shift_y 1 g) m i); [simpl; exact Hm | exact Hfilled | simpl; lia | lia].
  - discriminate.
Qed.

(** The hard drop of a piece with a filled cell terminates: with one unit
    of fuel per row between the piece and the floor it returns or raises,
    it does not run out of fuel. *)
Lemma hardDrop_ends fuel g m i :
  matrix (player g) = Some m -> filled_row m i ->
  ROWS - Pos.y (pos (player g)) - Z.of_nat i <= Z.of_nat fuel -> (0 < fuel)%nat ->
  hardDrop fuel g <> Spin.
Proof.
  intros Hm Hfilled Hbound Hpos. unfold hardDrop. rewrite bind_get.
  unfold isPieceActive. rewrite Hm. unfold bind.
  pose proof (hardDrop_loop_ends fuel g m i Hm Hfilled Hbound Hpos) as Hloop.
  destruct (hardDrop_loop fuel g); [discriminate | discriminate | contradiction].
Qed.

(** A matrix without any filled cell would keep the loop running for
    ever: no amount of fuel is enough. *)
Lemma hardDrop_loop_empty_matrix fuel : forall g,
  matrix (player g) = Some [] -> hardDrop_loop fuel g = Spin.
Proof.
  induction fuel as [|fuel IH]; intros g Hm; [reflexivity|].
  rewrite hardDrop_loop_step. unfold collide. simpl. rewrite Hm. simpl.
  apply IH. exact Hm.
Qed.

(** More fuel does not change what the loop of the hard drop computes. *)
Lemma hardDrop_loop_more_fuel fuel : forall g,
  hardDrop_loop fuel g <> Spin -> hardDrop_loop (S fuel) g = hardDrop_loop fuel g.
Proof.
  induction fuel as [|fuel IH]; intros g Hend; [now contradiction Hend|].
  rewrite (hardDrop_loop_step (S fuel) g), (hardDrop_loop_step fuel g).
  rewrite (hardDrop_loop_step fuel g) in Hend.
  destruct (collide _ _) as [[]|e]; try reflexivity.
  now apply IH.
Qed.

(** ** The score of a lock event *)

Lemma stats_arena_write g0 ay ax t : preserves (stats_as g0) (arena_write ay ax t).
Proof.
  intros g Hg. unfold arena_write.
  destruct (ay <? 0); [exact Hg|]. destruct (arena g !! Z.to_nat ay); exact Hg.
Qed.

Lemma stats_merge g0 : preserves (stats_as g0) merge.
Proof.
  unfold merge. pres_step same_modify; [pres_step same_modify|].
  pres_step same_modify; [|pres_step same_modify].
  apply preserves_forEachM. intros row y.
  apply preserves_forEachM. intros v x.
  repeat first [pres_step same_modify | apply stats_arena_write].
Qed.

(** A soft drop that locks the piece, with nothing queued, on a board of
    [ROWS] rows: the whole handler adds to the score the points of the
    [n] rows completed by the merge, times the level before the lock, and
    adds [n] to the cleared-lines total; no piece is in play afterwards. *)
Lemma playerDrop_lock_scores g gm n :
  isPieceActive g = true ->
  collide (arena g) (player (shift_y 1 g)) = Normal true ->
  merge (shift_y (-1) (shift_y 1 g)) = Done tt gm ->
  length (arena gm) = Z.to_nat ROWS ->
  queue g = [] ->
  n = Z.of_nat (length (full_rows (arena gm))) ->
  exists g', playerDrop g = Done tt g' /\
    score g' = score g + points_for n * level g /\
    cleared g' = cleared g + n /\
    isPieceActive g' = false.
Proof.
  intros Hact Hhit Hmerge Hlen Hq ->.
  rewrite (playerDrop_step g Hact), Hhit.
  pose proof (stats_merge g (shift_y (-1) (shift_y 1 g))) as Hstats.
  rewrite Hmerge in Hstats.
  destruct Hstats as (Hs & Hl & Hc & Hqm); [now repeat split|].
  unfold lock_soft. rewrite bind_assoc. rewrite (bind_done _ _ _ _ _ Hmerge).
  rewrite bind_assoc. unfold playCue at 1. rewrite bind_modify.
  rewrite bind_assoc.
  rewrite (bind_done _ _ _ _ _ (clearLines_board (add_cue CueLock gm) Hlen)).
  rewrite bind_assoc, bind_modify. unfold showPadOverlay at 1.
  rewrite bind_assoc, bind_modify.
  change (arena (add_cue CueLock gm)) with (arena gm).
  set (k := Z.of_nat (length (full_rows (arena gm)))).
  assert (Hk : 0 <= k) by (unfold k; lia).
  destruct (k >? 0) eqn:Hpos.
  - erewrite (bind_done spawnNext) by (apply spawnNext_empty; simpl; now rewrite Hqm).
    eexists. split; [reflexivity|]. simpl.
    split; [congruence|]. split; [congruence | reflexivity].
  - erewrite (bind_done spawnNext) by (apply spawnNext_empty; simpl; now rewrite Hqm).
    assert (k = 0) as -> by (destruct (Z.gtb_spec k 0); [discriminate | lia]).
    eexists. split; [reflexivity|]. simpl.
    change (points_for 0) with 0. split; [lia|]. split; [lia | reflexivity].
Qed.

(** ** What [collide] tests *)

Lemma hits_free a ay ax r :
  ((ay <? 0) || (ay >=? ROWS) || (ax <? 0) || (ax >=? COLS)) = false ->
  a !! Z.to_nat ay = Some r ->
  hits a ay ax = occupied (r !! Z.to_nat ax).
Proof. intros Hin Hr. unfold hits. now rewrite Hin, Hr. Qed.

Lemma hits_outside a ay ax :
  ((ay <? 0) || (ay >=? ROWS) || (ax <? 0) || (ax >=? COLS)) = true ->
  hits a ay ax = true.
Proof. intros Hout. unfold hits. now rewrite Hout. Qed.

Lemma collide_row_iff a p y row : forall x0 b,
  collide_row a p y row x0 = Normal b ->
  (b = true <->
   exists j v, row !! j = Some v /\ truthy v = true /\
               hits a (y + Pos.y p) (x0 + Z.of_nat j + Pos.x p) = true).
Proof.
  induction row as [|v row IH]; intros x0 b Hrun; simpl in Hrun.
  - injection Hrun as <-. split; [discriminate|]. intros (j & w & Hj & _). discriminate.
  - assert (Hshift : forall j, x0 + 1 + Z.of_nat j = x0 + Z.of_nat (S j)) by (intros; lia).
    assert (Hzero : x0 + Z.of_nat 0 + Pos.x p = x0 + Pos.x p) by lia.
    destruct (truthy v) eqn:Hv.
    + destruct (_ || _) eqn:Hout.
      * injection Hrun as <-. split; [intros _|reflexivity].
        exists 0%nat, v. rewrite Hzero. auto using hits_outside.
      * destruct (a !! Z.to_nat (y + Pos.y p)) as [r|] eqn:Hr; [|discriminate].
        pose proof (hits_free a _ _ r Hout Hr) as Hhits.
        destruct (occupied _) eqn:Hocc.
        -- injection Hrun as <-. split; [intros _|reflexivity].
           exists 0%nat, v. rewrite Hzero. auto.
        -- rewrite (IH (x0 + 1) b Hrun). split.
           ++ intros (j & w & Hj & Hw & Hh). exists (S j), w. rewrite <- Hshift. auto.
           ++ intros ([|j] & w & Hj & Hw & Hh).
              ** rewrite Hzero in Hh. congruence.
              ** exists j, w. rewrite Hshift. auto.
    + rewrite (IH (x0 + 1) b Hrun). split.
      * intros (j & w & Hj & Hw & Hh). exists (S j), w. rewrite <- Hshift. auto.
      * intros ([|j] & w & Hj & Hw & Hh).
        -- simpl in Hj. congruence.
        -- exists j, w. rewrite Hshift. auto.
Qed.

Lemma filled_spec m i j :
  filled m i j = true <->
  exists r v, m !! i = Some r /\ r !! j = Some v /\ truthy v = true.
Proof.
  unfold filled. split.
  - destruct (m !! i) as [r|]; [|discriminate].
    destruct (r !! j) as [v|] eqn:Hv; [|discriminate]. eauto.
  - intros (r & v & -> & -> & Hv). exact Hv.
Qed.

Lemma collide_rows_iff a p m : forall y0 b,
  collide_rows a p m y0 = Normal b ->
  (b = true <->
   exists i j, filled m i j = true /\
               hits a (y0 + Z.of_nat i + Pos.y p) (Z.of_nat j + Pos.x p) = true).
Proof.
  induction m as [|row m IH]; intros y0 b Hrun; simpl in Hrun.
  - injection Hrun as <-. split; [discriminate|].
    intros (i & j & Hf & _). unfold filled in Hf. now rewrite lookup_nil in Hf.
  - assert (Hshift : forall i, y0 + 1 + Z.of_nat i = y0 + Z.of_nat (S i)) by (intros; lia).
    assert (Hzero : y0 + Z.of_nat 0 = y0) by lia.
    destruct (collide_row a p y0 row 0) as [[]|e] eqn:Hrow; [| |discriminate].
    + injection Hrun as <-. split; [intros _|reflexivity].
      destruct (proj1 (collide_row_iff a p y0 row 0 true Hrow) eq_refl)
        as (j & v & Hj & Hv & Hh).
      exists 0%nat, j. rewrite Hzero. split; [|exact Hh].
      apply filled_spec. exists row, v. auto.
    + pose proof (collide_row_iff a p y0 row 0 false Hrow) as Hnone.
      rewrite (IH (y0 + 1) b Hrun). split.
      * intros (i & j & Hf & Hh). exists (S i), j. rewrite <- Hshift. auto.
      * intros ([|i] & j & Hf & Hh).
        -- apply filled_spec in Hf as (r & v & Hr & Hj & Hv).
           simpl in Hr. injection Hr as <-. rewrite Hzero in Hh.
           assert (false = true); [|discriminate].
           apply Hnone. exists j, v. auto.
        -- exists i, j. rewrite Hshift. auto.
Qed.

(** X1. On a board with (at least) [ROWS] rows, [collide] on a piece in
    play returns a boolean, and that boolean is [true] exactly when some
    filled cell of the matrix, moved by the piece's offset, falls outside
    the 20 by 10 grid or on a locked cell. *)
Theorem collide_true_iff (a : Arena) (pl : Player) (m : Matrix) :
  matrix pl = Some m ->
  (Z.to_nat ROWS <= length a)%nat ->
  exists b, collide a pl = Normal b /\
    (b = true <->
     exists i j, filled m i j = true /\
       hits a (Z.of_nat i + Pos.y (pos pl)) (Z.of_nat j + Pos.x (pos pl)) = true).
Proof.
  intros Hm Hlen. destruct (collide_total a pl m Hlen Hm) as [b Hb].
  exists b. split; [exact Hb|].
  unfold collide in Hb. rewrite Hm in Hb.
  exact (collide_rows_iff a (pos pl) m 0 b Hb).
Qed.

Lemma collide_true_iff_witness :
  collide (arena boot_T) (player (shift_y 19 boot_T)) = Normal true.
Proof.
  destruct (collide_true_iff (arena boot_T) (player (shift_y 19 boot_T))
              (shape0 pT) eq_refl (le_n 20)) as (b & Hb & Hiff).
  rewrite Hb. f_equal. apply Hiff. exists 1%nat, 1%nat. split; reflexivity.
Defined.

(** ** What [merge] writes *)

Lemma cell_at_insert (a : Arena) (r0 : list Cell) ay ax t r c :
  a !! ay = Some r0 -> (ax < length r0)%nat ->
  cell_at (<[ay := <[ax := t]> r0]> a) r c =
    if decide (r = ay /\ c = ax) then Some t else cell_at a r c.
Proof.
  intros Hr Hax. unfold cell_at.
  assert (Hay : (ay < length a)%nat) by (eapply lookup_lt_Some; eassumption).
  destruct (decide (r = ay)) as [->|Hne].
  - rewrite list_lookup_insert_eq by exact Hay. rewrite Hr.
    destruct (decide (c = ax)) as [->|Hne].
    + rewrite list_lookup_insert_eq by exact Hax. now rewrite decide_True.
    + rewrite list_lookup_insert_ne by congruence. now rewrite decide_False by tauto.
  - rewrite list_lookup_insert_ne by congruence. now rewrite decide_False by tauto.
Qed.

Lemma arena_write_inside g ay ax t r0 :
  0 <= ay -> arena g !! Z.to_nat ay = Some r0 ->
  0 <= ax < Z.of_nat (length r0) ->
  arena_write ay ax t g =
    Done tt (set_arena (<[Z.to_nat ay := <[Z.to_nat ax := t]> r0]> (arena g)) g).
Proof.
  intros Hay Hr Hax. unfold arena_write, row_set.
  replace (ay <? 0) with false by (symmetry; apply Z.ltb_ge; lia).
  rewrite Hr.
  replace (ax <? 0) with false by (symmetry; apply Z.ltb_ge; lia).
  replace (ax <? Z.of_nat (length r0)) with true by (symmetry; apply Z.ltb_lt; lia).
  reflexivity.
Qed.

(** The body of the two [forEach] loops of [merge]. *)
Lemma merge_row_spec (W : nat) (y : Z) (row : list Z) : forall x0 g,
  Forall (fun r : list Cell => length r = W) (arena g) ->
  (forall j v, row !! j = Some v -> truthy v = true ->
     0 <= y + Pos.y (pos (player g)) < Z.of_nat (length (arena g)) /\
     0 <= x0 + Z.of_nat j + Pos.x (pos (player g)) < Z.of_nat W) ->
  exists a',
    forEachM (fun v x =>
                if truthy v then
                  let! g' := get in
                  arena_write (y + Pos.y (pos (player g')))
                              (x + Pos.x (pos (player g'))) (type (player g'))
                else ret tt) row x0 g = Done tt (set_arena a' g) /\
    length a' = length (arena g) /\
    Forall (fun r : list Cell => length r = W) a' /\
    (forall j v, row !! j = Some v -> truthy v = true ->
       cell_at a' (Z.to_nat (y + Pos.y (pos (player g))))
                  (Z.to_nat (x0 + Z.of_nat j + Pos.x (pos (player g))))
         = Some (type (player g))) /\
    (forall r c,
       (forall j v, row !! j = Some v -> truthy v = true ->
          ~ (Z.of_nat r = y + Pos.y (pos (player g)) /\
             Z.of_nat c = x0 + Z.of_nat j + Pos.x (pos (player g)))) ->
       cell_at a' r c = cell_at (arena g) r c).
Proof.
  induction row as [|v row IH]; intros x0 g Hw Hin.
  - exists (arena g). simpl. unfold ret. rewrite set_arena_same.
    split; [reflexivity|]. split; [reflexivity|]. split; [exact Hw|].
    split; [intros j w Hj; discriminate | reflexivity].
  - assert (Hshift : forall j, x0 + 1 + Z.of_nat j = x0 + Z.of_nat (S j)) by (intros; lia).
    cbn [forEachM]. destruct (truthy v) eqn:Hv.
    + destruct (Hin 0%nat v eq_refl Hv) as [Hy Hx].
      destruct (arena g !! Z.to_nat (y + Pos.y (pos (player g)))) as [r0|] eqn:Hr0.
      2:{ apply lookup_ge_None in Hr0. lia. }
      assert (Hr0w : length r0 = W) by exact (Forall_lookup_1 _ _ _ _ Hw Hr0).
      rewrite (bind_done _ _ g tt
                 (set_arena (<[Z.to_nat (y + Pos.y (pos (player g))) :=
                                <[Z.to_nat (x0 + Pos.x (pos (player g))) :=
                                   type (player g)]> r0]> (arena g)) g)).
      2:{ rewrite bind_get. apply arena_write_inside; [lia | exact Hr0 | lia]. }
      set (a1 := <[_ := _]> (arena g)).
      destruct (IH (x0 + 1) (set_arena a1 g)) as (a' & Hrun & Hlen & Hw' & Hset & Hkeep).
      { simpl. apply Forall_insert; [exact Hw|]. now rewrite length_insert. }
      { intros j w Hj Hwt. simpl. unfold a1. rewrite length_insert.
        rewrite Hshift. apply (Hin (S j) w Hj Hwt). }
      simpl in Hrun, Hlen, Hset, Hkeep.
      exists a'. split; [exact Hrun|].
      split; [unfold a1 in Hlen; now rewrite length_insert in Hlen|].
      split; [exact Hw'|]. split.
      * intros [|j] w Hj Hwt.
        -- rewrite Hkeep.
           ++ unfold a1. rewrite cell_at_insert by (exact Hr0 || lia).
              rewrite decide_True; [reflexivity|]. split; [reflexivity|]. f_equal. lia.
           ++ intros j' w' _ _ [_ Hc]. lia.
        -- rewrite <- Hshift. now apply (Hset j w).
      * intros r c Hfree. rewrite Hkeep.
        -- unfold a1. rewrite cell_at_insert by (exact Hr0 || lia).
           rewrite decide_False; [reflexivity|].
           intros [-> ->]. apply (Hfree 0%nat v eq_refl Hv). lia.
        -- intros j w Hj Hwt. rewrite Hshift. now apply (Hfree (S j) w).
    + rewrite bind_ret.
      destruct (IH (x0 + 1) g Hw) as (a' & Hrun & Hlen & Hw' & Hset & Hkeep).
      { intros j w Hj Hwt. rewrite Hshift. apply (Hin (S j) w Hj Hwt). }
      exists a'. split; [exact Hrun|]. split; [exact Hlen|]. split; [exact Hw'|]. split.
      * intros [|j] w Hj Hwt; [simpl in Hj; congruence|].
        rewrite <- Hshift. now apply (Hset j w).
      * intros r c Hfree. apply Hkeep.
        intros j w Hj Hwt. rewrite Hshift. now apply (Hfree (S j) w).
Qed.

Lemma merge_rows_spec (W : nat) (m : Matrix) : forall y0 g,
  Forall (fun r : list Cell => length r = W) (arena g) ->
  (forall i j, filled m i j = true ->
     0 <= y0 + Z.of_nat i + Pos.y (pos (player g)) < Z.of_nat (length (arena g)) /\
     0 <= Z.of_nat j + Pos.x (pos (player g)) < Z.of_nat W) ->
  exists a',
    forEachM (fun row y =>
      forEachM (fun v x =>
                  if truthy v then
                    let! g' := get in
                    arena_write (y + Pos.y (pos (player g')))
                                (x + Pos.x (pos (player g'))) (type (player g'))
                  else ret tt) row 0) m y0 g = Done tt (set_arena a' g) /\
    length a' = length (arena g) /\
    Forall (fun r : list Cell => length r = W) a' /\
    (forall i j, filled m i j = true ->
       cell_at a' (Z.to_nat (y0 + Z.of_nat i + Pos.y (pos (player g))))
                  (Z.to_nat (Z.of_nat j + Pos.x (pos (player g))))
         = Some (type (player g))) /\
    (forall r c,
       (forall i j, filled m i j = true ->
          ~ (Z.of_nat r = y0 + Z.of_nat i + Pos.y (pos (player g)) /\
             Z.of_nat c = Z.of_nat j + Pos.x (pos (player g)))) ->
       cell_at a' r c = cell_at (arena g) r c).
Proof.
  induction m as [|row m IH]; intros y0 g Hw Hin.
  - exists (arena g). simpl. unfold ret. rewrite set_arena_same.
    split; [reflexivity|]. split; [reflexivity|]. split; [exact Hw|].
    split; [|reflexivity].
    intros i j Hf. unfold filled in Hf. now rewrite lookup_nil in Hf.
  - assert (Hshift : forall i, y0 + 1 + Z.of_nat i = y0 + Z.of_nat (S i)) by (intros; lia).
    assert (Hzero : y0 + Z.of_nat 0 = y0) by lia.
    assert (Hhead : forall j v, row !! j = Some v -> truthy v = true ->
              filled (row :: m) 0 j = true)
      by (intros j v Hj Hv; apply filled_spec; exists row, v; auto).
    assert (Htail : forall i j, filled m i j = true -> filled (row :: m) (S i) j = true)
      by (intros i j Hf; exact Hf).
    cbn [forEachM].
    destruct (merge_row_spec W y0 row 0 g Hw) as (a1 & Hrun1 & Hlen1 & Hw1 & Hset1 & Hkeep1).
    { intros j v Hj Hv. specialize (Hin 0%nat j (Hhead j v Hj Hv)).
      rewrite Hzero in Hin. exact Hin. }
    rewrite (bind_done _ _ _ _ _ Hrun1).
    destruct (IH (y0 + 1) (set_arena a1 g)) as (a' & Hrun & Hlen & Hw' & Hset & Hkeep).
    { exact Hw1. }
    { intros i j Hf. simpl. rewrite Hlen1, Hshift. apply (Hin (S i) j (Htail i j Hf)). }
    simpl in Hrun, Hlen, Hset, Hkeep.
    exists a'. split; [exact Hrun|]. split; [congruence|]. split; [exact Hw'|]. split.
    + intros [|i] j Hf.
      * apply filled_spec in Hf as (r & v & Hr & Hj & Hv).
        simpl in Hr. injection Hr as <-.
        destruct (Hin 0%nat j (Hhead j v Hj Hv)) as [Hy0 _].
        rewrite Hzero in *.
        rewrite Hkeep; [now apply (Hset1 j v)|].
        intros i' j' _ [Hrow _]. lia.
      * rewrite <- Hshift. now apply Hset.
    + intros r c Hfree. rewrite Hkeep.
      * apply Hkeep1. intros j v Hj Hv. rewrite <- Hzero at 1.
        now apply (Hfree 0%nat j (Hhead j v Hj Hv)).
      * intros i j Hf. rewrite Hshift. now apply (Hfree (S i) j (Htail i j Hf)).
Qed.

(** A piece that does not collide has all its filled cells inside the
    board, on cells that hold nothing. *)
Lemma collide_false_inside (a : Arena) (pl : Player) m i j :
  matrix pl = Some m -> collide a pl = Normal false -> filled m i j = true ->
  0 <= Z.of_nat i + Pos.y (pos pl) < ROWS /\
  0 <= Z.of_nat j + Pos.x (pos pl) < COLS /\
  hits a (Z.of_nat i + Pos.y (pos pl)) (Z.of_nat j + Pos.x (pos pl)) = false.
Proof.
  intros Hm Hfree Hf. unfold collide in Hfree. rewrite Hm in Hfree.
  pose proof (collide_rows_iff a (pos pl) m 0 false Hfree) as Hiff.
  destruct (hits a (Z.of_nat i + Pos.y (pos pl)) (Z.of_nat j + Pos.x (pos pl))) eqn:Hh.
  - assert (false = true); [|discriminate]. apply Hiff. exists i, j. auto.
  - unfold hits in Hh.
    repeat (apply orb_false_elim in Hh; destruct Hh as [Hh ?]).
    repeat split; try lia; reflexivity.
Qed.

(** [merge] on a piece that does not collide with a 20 by 10 board
    returns normally and changes nothing but the arena: every board cell
    under a filled cell of the matrix now holds the piece's type, every
    other cell is as before, and the board is still 20 by 10. *)
Lemma merge_fits g m :
  board (arena g) ->
  matrix (player g) = Some m ->
  collide (arena g) (player g) = Normal false ->
  exists a',
    merge g = Done tt (set_arena a' g) /\
    board a' /\
    (forall i j, filled m i j = true ->
       cell_at a' (Z.to_nat (Z.of_nat i + Pos.y (pos (player g))))
                  (Z.to_nat (Z.of_nat j + Pos.x (pos (player g))))
         = Some (type (player g))) /\
    (forall r c,
       (forall i j, filled m i j = true ->
          ~ (Z.of_nat r = Z.of_nat i + Pos.y (pos (player g)) /\
             Z.of_nat c = Z.of_nat j + Pos.x (pos (player g)))) ->
       cell_at a' r c = cell_at (arena g) r c).
Proof.
  intros [Hrows Hcols] Hm Hfree.
  destruct (merge_rows_spec (Z.to_nat COLS) m 0 g Hcols) as (a' & Hrun & Hlen & Hw & Hset & Hkeep).
  { intros i j Hf.
    destruct (collide_false_inside _ _ m i j Hm Hfree Hf) as (Hy & Hx & _).
    rewrite Hrows. change (Z.of_nat (Z.to_nat ROWS)) with ROWS.
    change (Z.of_nat (Z.to_nat COLS)) with COLS. lia. }
  exists a'. split.
  - unfold merge. rewrite bind_get, Hm. exact Hrun.
  - split; [split; [congruence | exact Hw]|]. split; [exact Hset | exact Hkeep].
Qed.

(** X2. [merge] on a piece that does not collide with a 20 by 10 board
    returns normally and changes nothing but the arena: every board cell
    under a filled cell of the matrix now holds the piece's type, every
    other cell is as before, and the board is still 20 by 10. *)
Theorem merge_writes_filled_cells g m :
  board (arena g) ->
  matrix (player g) = Some m ->
  collide (arena g) (player g) = Normal false ->
  exists a',
    merge g = Done tt (set_arena a' g) /\
    board a' /\
    (forall i j, filled m i j = true ->
       cell_at a' (Z.to_nat (Z.of_nat i + Pos.y (pos (player g))))
                  (Z.to_nat (Z.of_nat j + Pos.x (pos (player g))))
         = Some (type (player g))) /\
    (forall r c,
       (forall i j, filled m i j = true ->
          ~ (Z.of_nat r = Z.of_nat i + Pos.y (pos (player g)) /\
             Z.of_nat c = Z.of_nat j + Pos.x (pos (player g)))) ->
       cell_at a' r c = cell_at (arena g) r c).
Proof. exact (merge_fits g m). Qed.

Lemma merge_writes_filled_cells_witness :
  exists a', merge boot_T = Done tt (set_arena a' boot_T) /\
             cell_at a' 1 4 = Some (Some pT) /\ cell_at a' 0 3 = Some None.
Proof.
  destruct (merge_writes_filled_cells boot_T (shape0 pT))
    as (a' & Hrun & _ & Hset & Hkeep).
  - split; [reflexivity | vm_compute; repeat constructor].
  - reflexivity.
  - reflexivity.
  - exists a'. split; [exact Hrun|]. split.
    + apply (Hset 1%nat 1%nat). reflexivity.
    + rewrite Hkeep; [reflexivity|].
      intros i j Hf [Hr Hc]. simpl in Hr, Hc.
      assert (i = 0%nat) as -> by lia. assert (j = 0%nat) as -> by lia. discriminate.
Defined.

(** ** The running game stays sound *)

Lemma kept_rows_Forall (P : list Cell -> Prop) (a : Arena) :
  Forall P a -> Forall P (kept_rows a).
Proof.
  induction 1 as [|r a Hr _ IH]; [constructor|].
  rewrite kept_rows_cons. destruct (row_full r); [exact IH | now constructor].
Qed.

Lemma board_blank (a : Arena) : board a -> map blank_row a = createMatrix.
Proof.
  intros [Hrows Hcols]. rewrite (blank_rows_replicate _ a Hcols). now rewrite Hrows.
Qed.

Lemma board_createMatrix : board createMatrix.
Proof. split; [reflexivity | vm_compute; repeat constructor]. Qed.

Lemma board_compacted (a : Arena) :
  board a -> board (map blank_row (full_rows a) ++ kept_rows a).
Proof.
  intros [Hrows Hcols]. split.
  - now rewrite compacted_length.
  - apply Forall_app. split; [|now apply kept_rows_Forall].
    rewrite (blank_rows_replicate _ _ (full_rows_Forall _ a Hcols)).
    apply Forall_forall. intros r Hr. apply elem_of_replicate in Hr as [-> _].
    apply length_replicate.
Qed.

Lemma board_rows_ge (a : Arena) : board a -> (Z.to_nat ROWS <= length a)%nat.
Proof. intros [Hrows _]. lia. Qed.

(** Every piece fits at its spawn offset on an empty board. *)
Lemma spawn_fits code : collide createMatrix (createPiece code) = Normal false.
Proof. destruct code; reflexivity. Qed.

Lemma shape0_in_SHAPES code : shape0 code ∈ SHAPES code.
Proof. destruct code; now left. Qed.

(** The table of orientations is closed under the quarter turn. *)
Lemma SHAPES_rotate code m : m ∈ SHAPES code -> rotateMatrix m ∈ SHAPES code.
Proof.
  intros Hin. destruct code; simpl in Hin;
    repeat (apply elem_of_cons in Hin as [->|Hin];
            [first [ left; reflexivity | right; left; reflexivity
                   | right; right; left; reflexivity
                   | right; right; right; left; reflexivity ]|]);
    inversion Hin.
Qed.

Lemma SHAPES_filled code m :
  m ∈ SHAPES code ->
  exists i j, (i < 4)%nat /\ filled m i j = true /\ filled_row m i.
Proof.
  intros Hin. destruct code; simpl in Hin;
    repeat (apply elem_of_cons in Hin as [->|Hin];
            [first [ exists 0%nat, 0%nat; split; [lia|]; split; [reflexivity|];
                     eexists; split; reflexivity
                   | exists 0%nat, 1%nat; split; [lia|]; split; [reflexivity|];
                     eexists; split; reflexivity
                   | exists 0%nat, 2%nat; split; [lia|]; split; [reflexivity|];
                     eexists; split; reflexivity
                   | exists 1%nat, 0%nat; split; [lia|]; split; [reflexivity|];
                     eexists; split; reflexivity
                   | exists 1%nat, 1%nat; split; [lia|]; split; [reflexivity|];
                     eexists; split; reflexivity
                   | exists 2%nat, 0%nat; split; [lia|]; split; [reflexivity|];
                     eexists; split; reflexivity ]|]);
    inversion Hin.
Qed.

Lemma shift_x_undo d g : shift_x (- d) (shift_x d g) = g.
Proof.
  destruct g as [a [[px py] m r t] q s l c dc pa gr po cu].
  unfold shift_x. simpl. now replace (px + d + - d) with px by lia.
Qed.

Lemma shift_y_undo g : shift_y (-1) (shift_y 1 g) = g.
Proof.
  destruct g as [a [[px py] m r t] q s l c dc pa gr po cu].
  unfold shift_y. simpl. now replace (py + 1 + -1) with py by lia.
Qed.

(** Soundness only reads the arena, the player and the overlay. *)
Lemma sound_frame g g' :
  arena g' = arena g -> player g' = player g ->
  (matrix (player g) = None -> padOverlay g' = false) ->
  sound g -> sound g'.
Proof.
  intros Ha Hp Ho (Hb & Hpiece & _). unfold sound. rewrite Ha, Hp. auto.
Qed.

(** A state with a fitting piece in play is sound. *)
Lemma sound_active (g : Game) m code :
  board (arena g) -> matrix (player g) = Some m ->
  collide (arena g) (player g) = Normal false ->
  type (player g) = Some code -> m ∈ SHAPES code ->
  sound g.
Proof.
  intros Hb Hm Hfree Ht Hin. split; [exact Hb|]. split.
  - intros m' Hm'. rewrite Hm in Hm'. injection Hm' as <-. eauto.
  - rewrite Hm. discriminate.
Qed.

(** [spawnNext] on a 20 by 10 board returns normally, in a sound state. *)
Lemma spawnNext_sound g : board (arena g) -> ends_sound (spawnNext g).
Proof.
  intros Hb. destruct (queue g) as [|code q] eqn:Hq.
  - rewrite spawnNext_empty by exact Hq. eexists. split; [reflexivity|].
    split; [exact Hb|]. split; [discriminate | reflexivity].
  - rewrite (spawnNext_front g code q Hq).
    destruct (collide_total (arena g) (createPiece code) (shape0 code)
                (board_rows_ge _ Hb) eq_refl) as [b Hb'].
    rewrite (bind_done collideM _ _ b (spawned code q g))
      by (apply collideM_normal; exact Hb').
    destruct b.
    + eexists. split; [reflexivity|].
      apply (sound_active _ (shape0 code) code); simpl;
        try reflexivity; try apply shape0_in_SHAPES.
      * change (map (fun r : list Cell => replicate (length r) None) (arena g))
          with (map blank_row (arena g)).
        rewrite (board_blank _ Hb). apply board_createMatrix.
      * change (map (fun r : list Cell => replicate (length r) None) (arena g))
          with (map blank_row (arena g)).
        rewrite (board_blank _ Hb). apply spawn_fits.
    + eexists. split; [reflexivity|].
      apply (sound_active _ (shape0 code) code); simpl;
        try reflexivity; try apply shape0_in_SHAPES; assumption.
Qed.

Lemma clearLines_keeps_board g :
  board (arena g) ->
  exists g', clearLines g = Done tt g' /\ board (arena g') /\
             player g' = player g /\ padOverlay g' = padOverlay g /\
             queue g' = queue g.
Proof.
  intros Hb. pose proof (clearLines_board g (proj1 Hb)) as Hrun. cbv zeta in Hrun.
  eexists. split; [exact Hrun|].
  pose proof (board_compacted _ Hb).
  destruct (_ >? 0); simpl; auto.
Qed.

Lemma sound_piece g m :
  sound g -> matrix (player g) = Some m ->
  board (arena g) /\ collide (arena g) (player g) = Normal false /\
  exists code, type (player g) = Some code /\ m ∈ SHAPES code.
Proof. intros (Hb & Hpiece & _) Hm. destruct (Hpiece m Hm) as [Hfree Hcode]. auto. Qed.

Lemma lock_soft_sound g m :
  sound g -> matrix (player g) = Some m -> ends_sound (lock_soft g).
Proof.
  intros Hs Hm. destruct (sound_piece g m Hs Hm) as (Hb & Hfree & _).
  destruct (merge_fits g m Hb Hm Hfree) as (a' & Hmerge & Hb' & _).
  unfold lock_soft. rewrite (bind_done merge _ _ _ _ Hmerge).
  unfold playCue at 1. rewrite bind_modify.
  destruct (clearLines_keeps_board (add_cue CueLock (set_arena a' g)) Hb')
    as (gc & Hclear & Hbc & _).
  rewrite (bind_done clearLines _ _ _ _ Hclear).
  rewrite bind_modify. unfold showPadOverlay at 1. rewrite bind_modify.
  apply spawnNext_sound. exact Hbc.
Qed.

Lemma lock_hard_sound g m :
  sound g -> matrix (player g) = Some m -> ends_sound (lock_hard g).
Proof.
  intros Hs Hm. destruct (sound_piece g m Hs Hm) as (Hb & Hfree & _).
  destruct (merge_fits g m Hb Hm Hfree) as (a' & Hmerge & Hb' & _).
  unfold lock_hard. rewrite (bind_done merge _ _ _ _ Hmerge).
  destruct (clearLines_keeps_board (set_arena a' g) Hb') as (gc & Hclear & Hbc & _).
  rewrite (bind_done clearLines _ _ _ _ Hclear).
  apply spawnNext_sound. exact Hbc.
Qed.

Lemma ends_sound_then (c : M unit) g (f : Game -> Game) :
  ends_sound (c g) ->
  (forall g', sound g' -> sound (f g')) ->
  ends_sound ((c ;;; modify f ;;; renderBoard) g).
Proof.
  intros (g' & Hrun & Hs) Hf. rewrite (bind_done c _ _ _ _ Hrun).
  eexists. split; [reflexivity|]. now apply Hf.
Qed.

Lemma sound_set_dropCounter d g : sound g -> sound (set_dropCounter d g).
Proof. intros Hs. exact Hs. Qed.

Lemma playerDrop_sound g : sound g -> ends_sound (playerDrop g).
Proof.
  intros Hs. destruct (matrix (player g)) as [m|] eqn:Hm.
  - assert (Hact : isPieceActive g = true) by (unfold isPieceActive; now rewrite Hm).
    destruct (sound_piece g m Hs Hm) as (Hb & Hfree & code & Ht & Hin).
    rewrite (playerDrop_step g Hact).
    destruct (collide_total (arena g) (player (shift_y 1 g)) m (board_rows_ge _ Hb) Hm)
      as [[] Hhit]; rewrite Hhit.
    + rewrite shift_y_undo. apply ends_sound_then; [now apply (lock_soft_sound g m)|].
      intros g' Hg'. exact Hg'.
    + eexists. split; [reflexivity|].
      apply (sound_active _ m code); auto.
  - rewrite playerDrop_idle by (unfold isPieceActive; now rewrite Hm).
    eexists. split; [reflexivity | exact Hs].
Qed.

Lemma playerMove_sound g dir m :
  sound g -> matrix (player g) = Some m -> ends_sound (playerMove dir g).
Proof.
  intros Hs Hm. destruct (sound_piece g m Hs Hm) as (Hb & Hfree & code & Ht & Hin).
  unfold playerMove. rewrite bind_modify.
  destruct (collide_total (arena g) (player (shift_x dir g)) m (board_rows_ge _ Hb) Hm)
    as [b Hhit].
  rewrite (bind_done collideM _ _ b (shift_x dir g)) by (apply collideM_normal; exact Hhit).
  destruct b.
  - rewrite bind_modify, shift_x_undo. eexists. split; [reflexivity | exact Hs].
  - eexists. split; [reflexivity|]. apply (sound_active _ m code); auto.
Qed.

Lemma playerMove_idle_sound g dir :
  sound g -> matrix (player g) = None -> sound (shift_x dir g).
Proof.
  intros (Hb & _ & Ho) Hm. split; [exact Hb|]. split.
  - intros m' Hm'. simpl in Hm'. congruence.
  - intros _. now apply Ho.
Qed.

(** The kick loop ends by accepting a kick that does not collide or by
    rejecting all of them. *)
Lemma playerRotate_kicks_outcome g m rotated oldX ks : forall x0,
  matrix (player g) = Some m ->
  (Z.to_nat ROWS <= length (arena g))%nat ->
  (exists k, In k ks /\
     collide (arena g) (player (kick_state g rotated (oldX + k))) = Normal false /\
     playerRotate_kicks rotated oldX ks (put_x x0 g)
       = Done true (kick_state g rotated (oldX + k))) \/
  (exists x', playerRotate_kicks rotated oldX ks (put_x x0 g) = Done false (put_x x' g)).
Proof.
  intros x0 Hm Hlen. revert x0. induction ks as [|k ks IH]; intros x0.
  - right. exists x0. reflexivity.
  - rewrite playerRotate_kicks_cons.
    destruct (collide_total (arena g) (player (kick_state g rotated (oldX + k)))
                rotated Hlen eq_refl) as [[] Hhit]; rewrite Hhit.
    + destruct (IH (oldX + k)) as [(k' & Hin & Hfree & Hrun)|[x' Hrun]].
      * left. exists k'. split; [now right|]. auto.
      * right. eauto.
    + left. exists k. split; [now left|]. auto.
Qed.

Lemma playerRotate_sound g : sound g -> ends_sound (playerRotate g).
Proof.
  intros Hs. destruct (matrix (player g)) as [m|] eqn:Hm.
  - destruct (sound_piece g m Hs Hm) as (Hb & Hfree & code & Ht & Hin).
    rewrite (playerRotate_unfold g m Hm).
    destruct (playerRotate_kicks_outcome g m (rotateMatrix m) (Pos.x (pos (player g)))
                kicks (Pos.x (pos (player g))) Hm (board_rows_ge _ Hb))
      as [(k & _ & Hkfree & Hrun)|[x' Hrun]];
      rewrite (bind_done _ _ _ _ _ Hrun).
    + eexists. split; [reflexivity|].
      apply (sound_active _ (rotateMatrix m) code); auto using SHAPES_rotate.
    + rewrite bind_modify, put_x_put_x, put_x_same.
      eexists. split; [reflexivity | exact Hs].
  - rewrite playerRotate_idle by (unfold isPieceActive; now rewrite Hm).
    eexists. split; [reflexivity | exact Hs].
Qed.

(** The loop of the hard drop, from a sound state with a piece in play:
    either the fuel runs out or the handler returns in a sound state. *)
Lemma hardDrop_loop_sound fuel : forall g m,
  sound g -> matrix (player g) = Some m ->
  hardDrop_loop fuel g = Spin \/ ends_sound (hardDrop_loop fuel g).
Proof.
  induction fuel as [|fuel IH]; intros g m Hs Hm; [now left|].
  destruct (sound_piece g m Hs Hm) as (Hb & Hfree & code & Ht & Hin).
  rewrite hardDrop_loop_step.
  destruct (collide_total (arena g) (player (shift_y 1 g)) m (board_rows_ge _ Hb) Hm)
    as [[] Hhit]; rewrite Hhit.
  - right. rewrite shift_y_undo. now apply (lock_hard_sound g m).
  - apply (IH (shift_y 1 g) m); [|exact Hm].
    apply (sound_active _ m code); auto.
Qed.

(** In a sound state the piece in play has a filled cell at most [ROWS]
    rows above the floor, so [ROWS] turns of the loop are enough. *)
Lemma hardDrop_loop_sound_ends fuel g m :
  sound g -> matrix (player g) = Some m -> (Z.to_nat ROWS <= fuel)%nat ->
  ends_sound (hardDrop_loop fuel g).
Proof.
  intros Hs Hm Hfuel.
  destruct (sound_piece g m Hs Hm) as (Hb & Hfree & code & Ht & Hin).
  destruct (SHAPES_filled code m Hin) as (i & j & _ & Hf & Hrow).
  destruct (collide_false_inside _ _ m i j Hm Hfree Hf) as (Hy & _).
  destruct (hardDrop_loop_sound fuel g m Hs Hm) as [Hspin|Hend]; [|exact Hend].
  exfalso. apply (hardDrop_loop_ends fuel g m i Hm Hrow); [| |exact Hspin].
  - change (Z.to_nat ROWS) with 20%nat in Hfuel. change ROWS with 20 in *. lia.
  - change (Z.to_nat ROWS) with 20%nat in Hfuel. lia.
Qed.

Lemma hardDrop_sound fuel g :
  sound g -> hardDrop fuel g = Spin \/ ends_sound (hardDrop fuel g).
Proof.
  intros Hs. destruct (matrix (player g)) as [m|] eqn:Hm.
  - unfold hardDrop. rewrite bind_get. unfold isPieceActive. rewrite Hm.
    destruct (hardDrop_loop_sound fuel g m Hs Hm) as [Hspin|(g' & Hrun & Hs')].
    + left. unfold bind. now rewrite Hspin.
    + right. rewrite (bind_done _ _ _ _ _ Hrun). eexists. split; [reflexivity | exact Hs'].
  - right. rewrite hardDrop_idle by (unfold isPieceActive; now rewrite Hm).
    eexists. split; [reflexivity | exact Hs].
Qed.

Lemma onPadReleased_resume_sound c g :
  sound g -> ends_sound (onPadReleased_resume c g).
Proof.
  intros Hs. destruct c as [code|].
  - rewrite onPadReleased_resume_unshift.
    destruct (spawnNext_sound (set_queue (code :: queue g) g) (proj1 Hs))
      as (g' & Hrun & Hs').
    rewrite (bind_done _ _ _ _ _ Hrun). eexists. split; [reflexivity | exact Hs'].
  - eexists. split; [reflexivity|].
    apply (sound_frame g); [reflexivity | reflexivity | reflexivity | exact Hs].
Qed.

Lemma onPadReleased_sound c g : sound g -> ends_sound (onPadReleased c g).
Proof.
  intros Hs. unfold onPadReleased. rewrite bind_get.
  destruct (isPieceActive g || negb (gameReady g)) eqn:Hguard.
  - eexists. split; [reflexivity | exact Hs].
  - apply orb_false_elim in Hguard as [Hidle _].
    apply isPieceActive_false in Hidle.
    unfold playCue, showPadOverlay at 1. rewrite !bind_modify.
    destruct c as [code|].
    + rewrite onPadReleased_resume_unshift.
      destruct (spawnNext_sound
                  (set_queue (code :: queue g) (set_padOverlay true (add_cue CueSummon g)))
                  (proj1 Hs)) as (g' & Hrun & Hs').
      rewrite (bind_done _ _ _ _ _ Hrun). eexists. split; [reflexivity | exact Hs'].
    + eexists. split; [reflexivity|].
      apply (sound_frame g); [reflexivity | reflexivity | reflexivity | exact Hs].
Qed.

Lemma update_sound delta g : sound g -> ends_sound (update delta g).
Proof.
  intros Hs. unfold update. rewrite bind_get.
  destruct (negb (paused g) && isPieceActive g).
  - rewrite bind_assoc, bind_modify, bind_assoc, bind_get.
    destruct (_ >? _).
    + destruct (playerDrop_sound (set_dropCounter (dropCounter g + delta) g))
        as (g' & Hrun & Hs'); [exact Hs|].
      rewrite (bind_done _ _ _ _ _ Hrun). eexists. split; [reflexivity | exact Hs'].
    + eexists. split; [reflexivity | exact Hs].
  - eexists. split; [reflexivity | exact Hs].
Qed.

(** What a handler can do from a sound state: return in a sound state;
    raise, and then it is a move command given while no piece is in play;
    or run out of fuel, and then it is a hard drop given fewer than [ROWS]
    turns of its loop. *)
Lemma handle_sound e g :
  sound g ->
  match handle e g with
  | Done _ g' => sound g'
  | Raised err g' =>
      sound g' /\ err = TypeError /\ isPieceActive g = false /\
      (e = KeyArrowLeft \/ e = KeyArrowRight)
  | Spin => exists fuel, e = KeySpace fuel /\ (fuel < Z.to_nat ROWS)%nat
  end.
Proof.
  intros Hs.
  assert (Hend : forall c : M unit, ends_sound (c g) ->
            match c g with
            | Done _ g' => sound g'
            | Raised err g' =>
                sound g' /\ err = TypeError /\ isPieceActive g = false /\
                (e = KeyArrowLeft \/ e = KeyArrowRight)
            | Spin => exists fuel, e = KeySpace fuel /\ (fuel < Z.to_nat ROWS)%nat
            end).
  { intros c (g' & -> & Hs'). exact Hs'. }
  assert (Hmove : forall dir, (e = KeyArrowLeft \/ e = KeyArrowRight) ->
            match playerMove dir g with
            | Done _ g' => sound g'
            | Raised err g' =>
                sound g' /\ err = TypeError /\ isPieceActive g = false /\
                (e = KeyArrowLeft \/ e = KeyArrowRight)
            | Spin => exists fuel, e = KeySpace fuel /\ (fuel < Z.to_nat ROWS)%nat
            end).
  { intros dir He. destruct (matrix (player g)) as [m|] eqn:Hm.
    - apply Hend. now apply (playerMove_sound g dir m).
    - assert (Hidle : isPieceActive g = false) by (unfold isPieceActive; now rewrite Hm).
      rewrite (playerMove_idle g dir Hidle).
      auto using playerMove_idle_sound. }
  destruct e; simpl.
  - apply Hmove. now left.
  - apply Hmove. now right.
  - apply Hend. now apply playerDrop_sound.
  - destruct (le_lt_dec (Z.to_nat ROWS) fuel) as [Hge|Hlt].
    + apply (Hend (hardDrop fuel)).
      destruct (matrix (player g)) as [m|] eqn:Hm.
      * unfold hardDrop. rewrite bind_get. unfold isPieceActive. rewrite Hm.
        destruct (hardDrop_loop_sound_ends fuel g m Hs Hm Hge) as (g' & Hrun & Hs').
        rewrite (bind_done _ _ _ _ _ Hrun). eexists. split; [reflexivity | exact Hs'].
      * rewrite hardDrop_idle by (unfold isPieceActive; now rewrite Hm).
        eexists. split; [reflexivity | exact Hs].
    + destruct (hardDrop_sound fuel g Hs) as [Hspin|Hok].
      * rewrite Hspin. eauto.
      * now apply (Hend (hardDrop fuel)).
  - apply Hend. now apply playerRotate_sound.
  - apply (Hend (playerRotate ;;; playerRotate ;;; playerRotate)).
    destruct (playerRotate_sound g Hs) as (g1 & Hrun1 & Hs1).
    destruct (playerRotate_sound g1 Hs1) as (g2 & Hrun2 & Hs2).
    destruct (playerRotate_sound g2 Hs2) as (g3 & Hrun3 & Hs3).
    rewrite (bind_done _ _ _ _ _ Hrun1), (bind_done _ _ _ _ _ Hrun2).
    eexists. split; [exact Hrun3 | exact Hs3].
  - exact Hs.
  - exact Hs.
  - apply Hend. now apply onPadReleased_sound.
  - apply Hend. now apply onPadReleased_resume_sound.
  - apply Hend. now apply update_sound.
Qed.

Lemma sound_boot : sound boot.
Proof.
  split; [apply board_createMatrix|]. split; [discriminate | reflexivity].
Qed.

Lemma handle_preserves_sound e : preserves sound (handle e).
Proof.
  intros g Hs. pose proof (handle_sound e g Hs) as H.
  destruct (handle e g); [exact H | apply H | exact I].
Qed.

Lemma reachable_sound g : reachable g -> sound g.
Proof.
  apply (reachable_invariant sound); [apply sound_boot | apply handle_preserves_sound].
Qed.



(** X4. In every state the game reaches, a piece in play has a type, and
    its matrix is one of the four orientations tabulated in [SHAPES] for
    that type. *)
Theorem piece_is_orientation_of_its_type g m :
  reachable g -> matrix (player g) = Some m ->
  exists code, type (player g) = Some code /\ m ∈ SHAPES code.
Proof.
  intros Hreach Hm.
  now destruct (sound_piece g m (reachable_sound g Hreach) Hm) as (_ & _ & Hcode).
Qed.

Lemma piece_is_orientation_of_its_type_witness :
  exists code, type (player boot_T_turned) = Some code /\
               rotateMatrix (shape0 pT) ∈ SHAPES code.
Proof.
  apply (piece_is_orientation_of_its_type boot_T_turned);
    [apply boot_T_turned_reachable | reflexivity].
Defined.



(** X6. From a state the game reaches, the only handler run that ends in
    an uncaught exception is a move-left or move-right command given while
    no piece is in play, and the exception is the [TypeError] of
    [collide]; every other run returns normally. *)
Theorem only_idle_move_raises e g err g' :
  reachable g -> handle e g = Raised err g' ->
  err = TypeError /\ isPieceActive g = false /\
  (e = KeyArrowLeft \/ e = KeyArrowRight).
Proof.
  intros Hreach Hrun.
  pose proof (handle_sound e g (reachable_sound g Hreach)) as H.
  rewrite Hrun in H. tauto.
Qed.

Lemma only_idle_move_raises_witness :
  TypeError = TypeError /\ isPieceActive boot = false /\
  (KeyArrowLeft = KeyArrowLeft \/ KeyArrowLeft = KeyArrowRight).
Proof.
  apply (only_idle_move_raises KeyArrowLeft boot TypeError (shift_x (-1) boot));
    [apply reachable_boot | reflexivity].
Defined.

(** X15. [playerMove] on a piece in play, on a board of at least [ROWS]
    rows, returns normally: the piece has moved by [dir] columns when it
    does not collide there, and otherwise the state is exactly the state
    before the call. *)
Theorem playerMove_moves_or_reverts g dir m :
  matrix (player g) = Some m ->
  (Z.to_nat ROWS <= length (arena g))%nat ->
  (collide (arena g) (player (shift_x dir g)) = Normal false /\
   playerMove dir g = Done tt (shift_x dir g)) \/
  (collide (arena g) (player (shift_x dir g)) = Normal true /\
   playerMove dir g = Done tt g).
Proof.
  intros Hm Hlen. unfold playerMove. rewrite bind_modify.
  destruct (collide_total (arena g) (player (shift_x dir g)) m Hlen Hm) as [b Hhit].
  rewrite (bind_done collideM _ _ b (shift_x dir g)) by (apply collideM_normal; exact Hhit).
  destruct b.
  - right. split; [exact Hhit|]. now rewrite bind_modify, shift_x_undo.
  - left. split; [exact Hhit | reflexivity].
Qed.

Lemma playerMove_moves_or_reverts_witness :
  playerMove (-4) boot_T = Done tt boot_T.
Proof.
  destruct (playerMove_moves_or_reverts boot_T (-4) (shape0 pT) eq_refl (le_n 20))
    as [[Hfree _]|[_ Hrun]]; [discriminate Hfree | exact Hrun].
Defined.

(** X16. [spawnNext] on a 20 by 10 board returns normally. With an empty
    queue no piece is in play afterwards and the overlay is hidden. With a
    code at the front of the queue, that code has left the queue and is in
    play in its spawn orientation at (3,0) with rotation index 0, and it
    does not collide with the board as it is after the call (emptied by
    the game-over reset if it collided on arrival). *)
Theorem spawnNext_piece_fits g :
  board (arena g) ->
  exists g', spawnNext g = Done tt g' /\ board (arena g') /\
    (queue g = [] -> matrix (player g') = None /\ padOverlay g' = false) /\
    (forall code q, queue g = code :: q ->
       player g' = createPiece code /\ queue g' = q /\ padOverlay g' = true /\
       collide (arena g') (player g') = Normal false).
Proof.
  intros Hb. destruct (spawnNext_sound g Hb) as (g' & Hrun & Hs).
  exists g'. split; [exact Hrun|]. split; [apply Hs|]. split.
  - intros Hq. rewrite (spawnNext_empty g Hq) in Hrun. injection Hrun as <-. auto.
  - intros code q Hq.
    assert (Hp : player g' = createPiece code /\ queue g' = q /\ padOverlay g' = true).
    { rewrite (spawnNext_front g code q Hq) in Hrun. revert Hrun.
      unfold bind, collideM. destruct (collide _ _) as [[]|err]; simpl;
        intros Hrun; [| |discriminate]; injection Hrun as <-; auto. }
    destruct Hp as (Hp & Hq' & Ho). repeat (split; [assumption|]).
    apply (sound_piece g' (shape0 code) Hs). now rewrite Hp.
Qed.

Lemma spawnNext_piece_fits_witness :
  exists g', spawnNext blocked = Done tt g' /\
             collide (arena g') (player g') = Normal false.
Proof.
  destruct (spawnNext_piece_fits blocked) as (g' & Hrun & _ & _ & Hfront).
  - split; [reflexivity | vm_compute; repeat constructor].
  - exists g'. split; [exact Hrun|]. apply (Hfront pT []). reflexivity.
Defined.

(** X18. In every state the game reaches, the spawn queue is empty: the
    one insertion, in [onPadReleased], is followed in the same handler run
    by the [spawnNext] that takes the code out again. *)
Theorem queue_empty_between_events g : reachable g -> queue g = [].
Proof. exact (queue_always_empty g). Qed.

Lemma queue_empty_between_events_witness : queue boot_T_turned = [].
Proof. apply (queue_empty_between_events boot_T_turned), boot_T_turned_reachable. Defined.

(** X19. [rotateMatrix] of any matrix with [N] rows is an [N] by [N]
    matrix whose entry [(i, j)] is entry [(N-1-j, i)] of the argument, and
    four applications give back any square matrix, whatever its size and
    entries. *)
Theorem rotateMatrix_quarter_turn (m : Matrix) :
  length (rotateMatrix m) = length m /\
  square (rotateMatrix m) /\
  (forall i j, (i < length m)%nat -> (j < length m)%nat ->
     matrix_get (rotateMatrix m) i j = matrix_get m (length m - 1 - j) i) /\
  (square m -> rotateMatrix (rotateMatrix (rotateMatrix (rotateMatrix m))) = m).
Proof.
  split; [apply rotateMatrix_length|]. split; [apply rotateMatrix_square|].
  split; [apply rotateMatrix_spec | apply rotateMatrix_four].
Qed.

Lemma rotateMatrix_quarter_turn_witness :
  rotateMatrix (rotateMatrix (rotateMatrix (rotateMatrix [[5; 0]; [7; 9]])))
    = [[5; 0]; [7; 9]].
Proof.
  apply (rotateMatrix_quarter_turn [[5; 0]; [7; 9]]).
  unfold square. repeat constructor.
Defined.

(** X20. The table [SHAPES] agrees with [rotateMatrix]: for every piece,
    each tabulated orientation is the quarter turn of the one before it,
    and the first is the quarter turn of the fourth. *)
Theorem SHAPES_follow_rotateMatrix (code : PieceCode) :
  map rotateMatrix (SHAPES code) = drop 1 (SHAPES code) ++ take 1 (SHAPES code) /\
  length (SHAPES code) = 4%nat.
Proof. destruct code; split; reflexivity. Qed.

(** X21. The two spawn paths that no handler calls cannot be called
    without failing: [summonPieceNow] and [enqueuePredictedPiece] do their
    updates (on a board of at least [ROWS] rows the new piece is in play
    and, for [enqueuePredictedPiece] with no piece in play, the code was
    appended and the front taken) and then raise [ReferenceError] at the
    call of the undeclared [renderSide]. *)
Theorem dead_spawn_paths_raise g code :
  (Z.to_nat ROWS <= length (arena g))%nat ->
  (exists g', summonPieceNow code g = Raised ReferenceError g' /\
              player g' = createPiece code /\ dropCounter g' = 0 /\
              padOverlay g' = true) /\
  (exists g', enqueuePredictedPiece code g = Raised ReferenceError g' /\
              (isPieceActive g = true ->
                 player g' = player g /\ queue g' = queue g ++ [code]) /\
              (isPieceActive g = false ->
                 exists front, head (queue g ++ [code]) = Some front /\
                               player g' = createPiece front /\
                               queue g' = tail (queue g ++ [code]))).
Proof.
  intros Hlen. split.
  - unfold summonPieceNow. rewrite bind_modify. unfold showPadOverlay. rewrite bind_modify.
    destruct (collide_total (arena g) (createPiece code) (shape0 code) Hlen eq_refl)
      as [b Hb].
    erewrite (bind_done collideM) by (apply collideM_normal; exact Hb).
    destruct b; eexists; (split; [reflexivity|]); now repeat split.
  - rewrite enqueuePredictedPiece_push. rewrite bind_get.
    change (isPieceActive (set_queue (queue g ++ [code]) g)) with (isPieceActive g).
    destruct (isPieceActive g) eqn:Hact.
    + eexists. split; [reflexivity|]. split; [now split | discriminate].
    + destruct (queue g ++ [code]) as [|front q] eqn:Hq;
        [now destruct (queue g)|].
      destruct (spawnNext_returns (set_queue (front :: q) g) Hlen) as [g1 Hrun].
      destruct (spawnNext_front_final (set_queue (front :: q) g) front q eq_refl)
        as (g2 & Hfin & Hp & Hq2).
      rewrite Hrun in Hfin. injection Hfin as <-.
      rewrite (bind_done _ _ _ _ _ Hrun).
      eexists. split; [reflexivity|]. split; [discriminate|].
      intros _. exists front. auto.
Qed.

Lemma dead_spawn_paths_raise_witness :
  exists g', summonPieceNow pL boot = Raised ReferenceError g' /\
             player g' = createPiece pL.
Proof.
  destruct (proj1 (dead_spawn_paths_raise boot pL (le_n 20))) as (g' & Hrun & Hp & _).
  eauto.
Defined.

(** ** Where the drops end *)

Lemma shift_y_add a b g : shift_y a (shift_y b g) = shift_y (b + a) g.
Proof.
  destruct g as [ar [[px py] m r t] q s l c dc pa gr po cu].
  unfold shift_y. simpl. now rewrite Z.add_assoc.
Qed.

Lemma shift_y_zero g : shift_y 0 g = g.
Proof.
  destruct g as [ar [[px py] m r t] q s l c dc pa gr po cu].
  unfold shift_y. simpl. now rewrite Z.add_0_r.
Qed.

Lemma hardDrop_loop_lands (k : nat) : forall fuel g,
  (forall j : nat, (1 <= j <= k)%nat ->
     collide (arena g) (player (shift_y (Z.of_nat j) g)) = Normal false) ->
  collide (arena g) (player (shift_y (Z.of_nat (S k)) g)) = Normal true ->
  (k < fuel)%nat ->
  hardDrop_loop fuel g = lock_hard (shift_y (Z.of_nat k) g).
Proof.
  induction k as [|k IH]; intros fuel g Hfree Hhit Hfuel;
    (destruct fuel as [|fuel]; [lia|]); rewrite hardDrop_loop_step.
  - change (Z.of_nat 1) with 1 in Hhit. rewrite Hhit.
    now rewrite shift_y_undo, shift_y_zero.
  - assert (H1 : collide (arena g) (player (shift_y 1 g)) = Normal false)
      by (apply (Hfree 1%nat); lia).
    rewrite H1.
    rewrite (IH fuel (shift_y 1 g)).
    + rewrite shift_y_add. f_equal. f_equal. lia.
    + intros j Hj. rewrite shift_y_add.
      replace (1 + Z.of_nat j) with (Z.of_nat (S j)) by lia.
      apply Hfree. lia.
    + rewrite shift_y_add.
      replace (1 + Z.of_nat (S k)) with (Z.of_nat (S (S k))) by lia. exact Hhit.
    + lia.
Qed.

(** X8. The hard drop puts the piece on the lowest row it can reach by
    going straight down: if the [k] positions below the piece are free and
    the next one collides, then with more than [k] turns of fuel the
    handler is the lock sequence (merge, clear lines, next spawn) run with
    the piece [k] rows lower, and it plays no lock cue. *)
Theorem hardDrop_lands_on_lowest_free_row (k fuel : nat) g m :
  matrix (player g) = Some m ->
  (forall j : nat, (1 <= j <= k)%nat ->
     collide (arena g) (player (shift_y (Z.of_nat j) g)) = Normal false) ->
  collide (arena g) (player (shift_y (Z.of_nat (S k)) g)) = Normal true ->
  (k < fuel)%nat ->
  hardDrop fuel g =
    (merge ;;; clearLines ;;; spawnNext ;;; renderBoard) (shift_y (Z.of_nat k) g).
Proof.
  intros Hm Hfree Hhit Hfuel. unfold hardDrop. rewrite bind_get.
  unfold isPieceActive. rewrite Hm. unfold bind at 1.
  rewrite (hardDrop_loop_lands k fuel g Hfree Hhit Hfuel).
  unfold lock_hard, bind.
  destruct (merge _) as [[] g1| |]; [|reflexivity|reflexivity].
  destruct (clearLines g1) as [[] g2| |]; [|reflexivity|reflexivity].
  destruct (spawnNext g2) as [[] g3| |]; reflexivity.
Qed.

Lemma hardDrop_lands_on_lowest_free_row_witness :
  hardDrop 19 boot_T =
    (merge ;;; clearLines ;;; spawnNext ;;; renderBoard) (shift_y 18 boot_T).
Proof.
  apply (hardDrop_lands_on_lowest_free_row 18 19 boot_T (shape0 pT)).
  - reflexivity.
  - intros j Hj.
    assert (Hcases : In j (seq 1 18)) by (apply in_seq; lia).
    simpl in Hcases.
    repeat (destruct Hcases as [<-|Hcases]; [reflexivity|]). contradiction.
  - reflexivity.
  - lia.
Defined.

Lemma set_dropCounter_shift_y d k g :
  shift_y k (set_dropCounter d g) = set_dropCounter d (shift_y k g).
Proof. reflexivity. Qed.

Lemma repeat_playerDrop_free (k : nat) : forall g,
  isPieceActive g = true ->
  (forall j : nat, (1 <= j <= S k)%nat ->
     collide (arena g) (player (shift_y (Z.of_nat j) g)) = Normal false) ->
  repeatM (S k) playerDrop g = Done tt (set_dropCounter 0 (shift_y (Z.of_nat (S k)) g)).
Proof.
  induction k as [|k IH]; intros g Hact Hfree.
  - cbn [repeatM]. rewrite (bind_done playerDrop _ g tt (set_dropCounter 0 (shift_y 1 g))).
    + reflexivity.
    + rewrite (playerDrop_step g Hact).
      assert (H1 : collide (arena g) (player (shift_y 1 g)) = Normal false)
        by (apply (Hfree 1%nat); lia).
      now rewrite H1.
  - change (repeatM (S (S k)) playerDrop) with (playerDrop ;;; repeatM (S k) playerDrop).
    rewrite (bind_done playerDrop _ g tt (set_dropCounter 0 (shift_y 1 g))).
    + rewrite IH.
      * rewrite set_dropCounter_shift_y, shift_y_add.
        replace (1 + Z.of_nat (S k)) with (Z.of_nat (S (S k))) by lia. reflexivity.
      * exact Hact.
      * intros j Hj. rewrite set_dropCounter_shift_y, shift_y_add.
        replace (1 + Z.of_nat j) with (Z.of_nat (S j)) by lia.
        apply (Hfree (S j)). lia.
    + rewrite (playerDrop_step g Hact).
      assert (H1 : collide (arena g) (player (shift_y 1 g)) = Normal false)
        by (apply (Hfree 1%nat); lia).
      now rewrite H1.
Qed.

(** X9. Soft drops through free space only move the piece: when the [k]
    positions below a piece in play are free ([k >= 1]), [k] calls of
    [playerDrop] return normally and leave the state as it was except that
    the piece is [k] rows lower and [dropCounter] is 0; nothing is merged,
    no cue is played, the queue and the score are untouched. *)
Theorem soft_drops_only_descend (k : nat) g :
  isPieceActive g = true ->
  (1 <= k)%nat ->
  (forall j : nat, (1 <= j <= k)%nat ->
     collide (arena g) (player (shift_y (Z.of_nat j) g)) = Normal false) ->
  repeatM k playerDrop g = Done tt (set_dropCounter 0 (shift_y (Z.of_nat k) g)).
Proof.
  intros Hact Hk Hfree. destruct k as [|k]; [lia|].
  now apply repeat_playerDrop_free.
Qed.

Lemma soft_drops_only_descend_witness :
  repeatM 3 playerDrop boot_T = Done tt (set_dropCounter 0 (shift_y 3 boot_T)).
Proof.
  apply (soft_drops_only_descend 3 boot_T); [reflexivity | lia |].
  intros j Hj.
  assert (Hcases : In j (seq 1 3)) by (apply in_seq; lia).
  simpl in Hcases.
  repeat (destruct Hcases as [<-|Hcases]; [reflexivity|]). contradiction.
Defined.





Lemma spawnNext_cues g0 g1 : spawnNext g0 = Done tt g1 -> cues g1 = cues g0.
Proof.
  destruct (queue g0) as [|code q] eqn:Hq.
  - rewrite (spawnNext_empty g0 Hq). intros H. inversion H. reflexivity.
  - rewrite (spawnNext_front g0 code q Hq). unfold bind, collideM.
    destruct (collide _ _) as [[]|err]; simpl; intros H;
      [| |discriminate]; inversion H; reflexivity.
Qed.

(** X10. From a sound state with a piece in play (every reachable state
    is one), the lock sequence of the soft drop and the lock sequence of
    the hard drop both return normally, in states with the same arena,
    player, queue, score, level, cleared lines, overlay and drop counter.
    Their cue traces differ by the one [lock] cue: the hard drop has added
    only the [line] cue, if any row went, and the soft drop [lock] before
    it. *)
Theorem lock_sequences_agree g m :
  sound g -> matrix (player g) = Some m ->
  exists gh gs line,
    lock_hard g = Done tt gh /\ lock_soft g = Done tt gs /\
    arena gs = arena gh /\ player gs = player gh /\ queue gs = queue gh /\
    score gs = score gh /\ level gs = level gh /\ cleared gs = cleared gh /\
    padOverlay gs = padOverlay gh /\ dropCounter gs = dropCounter gh /\
    cues gh = cues g ++ line /\ cues gs = cues g ++ CueLock :: line /\
    (line = [] \/ line = [CueLine]).
Proof.
  intros Hs Hm. destruct (sound_piece g m Hs Hm) as (Hb & Hfree & _).
  destruct (merge_fits g m Hb Hm Hfree) as (a' & Hmerge & Hb' & _).
  destruct (lock_hard_vs_soft g (set_arena a' g) Hmerge (proj1 Hb'))
    as (gh & gs & line & Hh & Hsoft & Ha & Hp & Hq & Hsc & Hl & Hc & Ho & Hd & Hch & Hcs & _).
  exists gh, gs, line. repeat (split; [assumption|]).
  clear Hsoft Hcs Ha Hp Hq Hsc Hl Hc Ho Hd gs.
  unfold lock_hard in Hh. rewrite (bind_done merge _ _ _ _ Hmerge) in Hh.
  rewrite (bind_done clearLines _ _ _ _ (clearLines_board (set_arena a' g) (proj1 Hb'))) in Hh.
  apply spawnNext_cues in Hh. rewrite Hh in Hch.
  destruct (_ >? 0); simpl in Hch.
  - right. eapply app_inv_head. rewrite <- Hch. reflexivity.
  - left. eapply app_inv_head. rewrite <- Hch. now rewrite app_nil_r.
Qed.

Lemma lock_sequences_agree_witness :
  exists gh gs, lock_hard (shift_y 18 boot_T) = Done tt gh /\
                lock_soft (shift_y 18 boot_T) = Done tt gs /\
                arena gs = arena gh.
Proof.
  destruct (lock_sequences_agree (shift_y 18 boot_T) (shape0 pT))
    as (gh & gs & line & Hh & Hs & Ha & _).
  - apply (sound_active _ (shape0 pT) pT); try reflexivity.
    + apply board_createMatrix.
    + now left.
  - reflexivity.
  - eauto.
Defined.

(** ** After the lines are cleared *)

Lemma full_rows_blank (a : Arena) : full_rows (map blank_row a) = [].
Proof.
  induction a as [|r a IH]; [reflexivity|].
  simpl map. now rewrite full_rows_cons, row_full_blank.
Qed.

Lemma full_rows_kept (a : Arena) : full_rows (kept_rows a) = [].
Proof.
  induction a as [|r a IH]; [reflexivity|].
  rewrite kept_rows_cons. destruct (row_full r) eqn:Hr; [exact IH|].
  now rewrite full_rows_cons, Hr.
Qed.

Lemma kept_rows_all (a : Arena) : full_rows a = [] -> kept_rows a = a.
Proof.
  induction a as [|r a IH]; [reflexivity|].
  rewrite full_rows_cons, kept_rows_cons.
  destruct (row_full r); [discriminate|]. intros H. now rewrite IH.
Qed.

(** X11. After [clearLines] on a board of [ROWS] rows no row is full, and
    a second [clearLines] right after it returns without changing the
    state at all (no row removed, no cue, no score). *)
Theorem clearLines_leaves_no_full_row g :
  length (arena g) = Z.to_nat ROWS ->
  exists g', clearLines g = Done tt g' /\
             full_rows (arena g') = [] /\
             clearLines g' = Done tt g'.
Proof.
  intros Hlen. pose proof (clearLines_board g Hlen) as Hrun. cbv zeta in Hrun.
  set (a' := map blank_row (full_rows (arena g)) ++ kept_rows (arena g)) in *.
  assert (Hnone : full_rows a' = [])
    by (unfold a'; now rewrite full_rows_app, full_rows_blank, full_rows_kept).
  assert (Hlen' : length a' = Z.to_nat ROWS)
    by (unfold a'; now rewrite compacted_length).
  eexists. split; [exact Hrun|].
  assert (Hidem : forall g1, arena g1 = a' -> clearLines g1 = Done tt g1).
  { intros g1 Ha. rewrite (clearLines_board g1) by now rewrite Ha.
    cbv zeta. rewrite Ha, Hnone. simpl. rewrite (kept_rows_all a' Hnone).
    now rewrite <- Ha, set_arena_same. }
  destruct (_ >? 0); split; try exact Hnone; now apply Hidem.
Qed.

Lemma clearLines_leaves_no_full_row_witness :
  exists g', clearLines one_line = Done tt g' /\
             full_rows (arena g') = [] /\ clearLines g' = Done tt g'.
Proof. apply (clearLines_leaves_no_full_row one_line). reflexivity. Defined.

(** X12. [clearLines] on a board of [ROWS] rows plays the [line] cue
    exactly once when at least one row was full, however many were, and
    plays nothing when none was. *)
Theorem line_cue_once_per_clear g :
  length (arena g) = Z.to_nat ROWS ->
  exists g', clearLines g = Done tt g' /\
    (full_rows (arena g) = [] -> cues g' = cues g) /\
    (full_rows (arena g) <> [] -> cues g' = cues g ++ [CueLine]).
Proof.
  intros Hlen. pose proof (clearLines_board g Hlen) as Hrun. cbv zeta in Hrun.
  eexists. split; [exact Hrun|].
  destruct (full_rows (arena g)) as [|r l]; simpl length.
  - split; [reflexivity | congruence].
  - replace (Z.of_nat (S (length l)) >? 0) with true by (symmetry; apply Z.gtb_lt; lia).
    split; [discriminate | reflexivity].
Qed.

Lemma line_cue_once_per_clear_witness :
  exists g', clearLines one_line = Done tt g' /\ cues g' = cues one_line ++ [CueLine].
Proof.
  destruct (line_cue_once_per_clear one_line eq_refl) as (g' & Hrun & _ & Hcue).
  exists g'. split; [exact Hrun|]. apply Hcue. discriminate.
Defined.

Lemma points_for_nonneg n : 0 <= points_for n.
Proof.
  unfold points_for. destruct (n <? 0); [lia|].
  destruct (Z.to_nat n) as [|[|[|[|[|k]]]]]; simpl; lia.
Qed.

Lemma points_for_many n : 5 <= n -> points_for n = 0.
Proof.
  intros Hn. unfold points_for.
  replace (n <? 0) with false by (symmetry; apply Z.ltb_ge; lia).
  destruct (Z.to_nat n) as [|[|[|[|[|k]]]]] eqn:Hk; try lia. reflexivity.
Qed.

(** X13. The bookkeeping of one [clearLines] on a board of [ROWS] rows at
    level at least 1, with [n] full rows: the score never goes down; the
    cleared-lines total grows by [n]; the level goes up by exactly one
    when the new total has reached ten times the old level, and stays
    otherwise, so it never rises by more than one per call; five or more
    rows at once count as lines but score nothing; with no full row
    neither the level nor the score changes. *)
Theorem clearLines_bookkeeping g n :
  length (arena g) = Z.to_nat ROWS ->
  1 <= level g ->
  n = Z.of_nat (length (full_rows (arena g))) ->
  exists g', clearLines g = Done tt g' /\
    score g <= score g' /\
    cleared g' = cleared g + n /\
    (level g * 10 <= cleared g + n -> 1 <= n -> level g' = level g + 1) /\
    (cleared g + n < level g * 10 -> level g' = level g) /\
    level g <= level g' <= level g + 1 /\
    (5 <= n -> score g' = score g) /\
    (n = 0 -> level g' = level g /\ score g' = score g).
Proof.
  intros Hlen Hlevel ->.
  pose proof (clearLines_board g Hlen) as Hrun. cbv zeta in Hrun.
  set (k := Z.of_nat (length (full_rows (arena g)))) in *.
  eexists. split; [exact Hrun|].
  pose proof (points_for_nonneg k) as Hpts.
  destruct (k >? 0) eqn:Hpos.
  - apply Z.gtb_lt in Hpos. simpl.
    assert (Hstep : level g <= (if cleared g + k >=? level g * 10
                               then level g + 1 else level g) <= level g + 1)
      by (destruct (_ >=? _); lia).
    split; [nia|]. split; [reflexivity|]. split.
    { intros Hreach _.
      now replace (cleared g + k >=? level g * 10) with true
        by (symmetry; apply Z.geb_le; lia). }
    split.
    { intros Hbelow.
      destruct (cleared g + k >=? level g * 10) eqn:Hge; [|reflexivity].
      apply Z.geb_le in Hge. lia. }
    split; [exact Hstep|]. split; [|lia].
    intros Hmany. rewrite (points_for_many k Hmany). lia.
  - assert (Hk : k = 0)
      by (destruct (Z.gtb_spec k 0); [discriminate | unfold k in *; lia]).
    simpl. rewrite Hk. repeat split; lia.
Qed.

Lemma clearLines_bookkeeping_witness :
  exists g', clearLines one_line = Done tt g' /\ cleared g' = 13 + 1 /\ level g' = 2.
Proof.
  destruct (clearLines_bookkeeping one_line 1) as (g' & Hrun & _ & Hc & _ & Hstay & _).
  - reflexivity.
  - vm_compute. discriminate.
  - reflexivity.
  - exists g'. split; [exact Hrun|]. split; [exact Hc|]. apply Hstay. reflexivity.
Defined.

(** X14. The gravity interval [dropInterval] at level [L >= 1] is
    [800 - 60 (L - 1)] milliseconds up to level 12 and 100 from level 13
    on; it always lies between 100 and 800 and never grows with the
    level. *)
Theorem dropInterval_bounds g g' :
  1 <= level g -> level g <= level g' ->
  100 <= dropInterval g <= 800 /\
  (level g <= 12 -> dropInterval g = 800 - 60 * (level g - 1)) /\
  (13 <= level g -> dropInterval g = 100) /\
  dropInterval g' <= dropInterval g.
Proof.
  intros H1 Hle. unfold dropInterval, DROP_START_SPEED_MS, SPEED_PER_LEVEL. lia.
Qed.

Lemma dropInterval_bounds_witness : dropInterval one_line = 800 - 60 * (2 - 1).
Proof.
  apply (dropInterval_bounds one_line one_line); [vm_compute | lia | vm_compute];
    discriminate.
Defined.

(** ** From the drawing to the piece *)

(** X17. [onPadReleased] on a 20 by 10 board. While a piece is in play or
    before the game is ready it does nothing. Otherwise it plays the
    [summon] cue and, given a piece code by the classifier, returns with
    that piece in play in its spawn orientation at (3,0), rotation index
    0, not colliding, the overlay shown and the queue as it was; given no
    code, it returns with the overlay hidden and nothing else changed. *)
Theorem onPadReleased_spawns_drawn_piece g :
  board (arena g) ->
  ((isPieceActive g = true \/ gameReady g = false) ->
     forall c, onPadReleased c g = Done tt g) /\
  (isPieceActive g = false -> gameReady g = true ->
     (forall code, exists g',
        onPadReleased (Some code) g = Done tt g' /\
        player g' = createPiece code /\ queue g' = queue g /\
        cues g' = cues g ++ [CueSummon] /\ padOverlay g' = true /\
        collide (arena g') (player g') = Normal false) /\
     onPadReleased None g = Done tt (set_padOverlay false (add_cue CueSummon g))).
Proof.
  intros Hb. split.
  - intros Hguard c. unfold onPadReleased. rewrite bind_get.
    replace (isPieceActive g || negb (gameReady g)) with true; [reflexivity|].
    destruct Hguard as [-> | ->]; [reflexivity | now rewrite orb_true_r].
  - intros Hidle Hready. split; [|unfold onPadReleased; rewrite bind_get, Hidle, Hready;
                                  reflexivity].
    intros code. unfold onPadReleased. rewrite bind_get, Hidle, Hready.
    cbn [negb orb]. unfold playCue, showPadOverlay at 1. rewrite !bind_modify.
    rewrite onPadReleased_resume_unshift.
    set (g1 := set_queue (code :: queue g) (set_padOverlay true (add_cue CueSummon g))).
    destruct (spawnNext_sound g1 Hb) as (g' & Hrun & Hs).
    rewrite (bind_done _ _ _ _ _ Hrun). exists g'. split; [reflexivity|].
    pose proof (spawnNext_cues g1 g' Hrun) as Hcues.
    assert (Hp : player g' = createPiece code /\ queue g' = queue g /\ padOverlay g' = true).
    { rewrite (spawnNext_front g1 code (queue g) eq_refl) in Hrun. revert Hrun.
      unfold bind, collideM. destruct (collide _ _) as [[]|err]; simpl;
        intros Hrun; [| |discriminate]; injection Hrun as <-; auto. }
    destruct Hp as (Hp & Hq & Ho).
    split; [exact Hp|]. split; [exact Hq|]. split; [exact Hcues|]. split; [exact Ho|].
    apply (sound_piece g' (shape0 code) Hs). now rewrite Hp.
Qed.

Lemma onPadReleased_spawns_drawn_piece_witness :
  exists g', onPadReleased (Some pI) boot = Done tt g' /\
             player g' = createPiece pI /\ queue g' = [].
Proof.
  destruct (onPadReleased_spawns_drawn_piece boot board_createMatrix) as [_ Hidle].
  destruct (Hidle eq_refl eq_refl) as [Hsome _].
  destruct (Hsome pI) as (g' & Hrun & Hp & Hq & _). eauto.
Defined.

(** ** The arg-max *)

Section ArgmaxFacts.
Variable T : Type.
Variable gt : T -> T -> bool.

Lemma argmax_step_bound (probs : list T) (idx : list nat) : forall best,
  (best < length probs)%nat ->
  Forall (fun i => (i < length probs)%nat) idx ->
  (foldl (fun best i =>
            match probs !! i, probs !! best with
            | Some p, Some q => if gt p q then i else best
            | _, _ => best
            end) best idx < length probs)%nat.
Proof using Type.
  induction idx as [|i idx IH]; intros best Hbest Hidx; [exact Hbest|].
  apply Forall_cons in Hidx as [Hi Hidx]. cbn [foldl]. apply IH; [|exact Hidx].
  destruct (probs !! i); [|exact Hbest]. destruct (probs !! best); [|exact Hbest].
  destruct (gt t t0); assumption.
Qed.

Lemma argmax_in_range (probs : list T) :
  probs <> [] -> (argmax T gt probs < length probs)%nat.
Proof using Type.
  intros Hne. unfold argmax. apply argmax_step_bound.
  - destruct probs; [contradiction | simpl; lia].
  - apply Forall_forall. intros i Hi. apply elem_of_seq in Hi. lia.
Qed.

Hypothesis gt_irrefl : forall x, gt x x = false.
Hypothesis gt_trans : forall x y z, gt x y = true -> gt y z = true -> gt x z = true.
Hypothesis gt_cotrans : forall x y z, gt x z = true -> gt x y = true \/ gt y z = true.

(** The loop invariant: [best] is the first index, among those below [k],
    of an entry that none of them exceeds. *)
Lemma argmax_invariant (probs : list T) (n : nat) : forall a best,
  (best < a)%nat -> (a + n <= length probs)%nat ->
  (forall i p q, (i < a)%nat -> probs !! i = Some p -> probs !! best = Some q ->
     gt p q = false) ->
  (forall i p q, (i < best)%nat -> probs !! i = Some p -> probs !! best = Some q ->
     gt q p = true) ->
  let best' := foldl (fun best i =>
                        match probs !! i, probs !! best with
                        | Some p, Some q => if gt p q then i else best
                        | _, _ => best
                        end) best (seq a n) in
  (best' < a + n)%nat /\
  (forall i p q, (i < a + n)%nat -> probs !! i = Some p -> probs !! best' = Some q ->
     gt p q = false) /\
  (forall i p q, (i < best')%nat -> probs !! i = Some p -> probs !! best' = Some q ->
     gt q p = true).
Proof using gt_irrefl gt_trans gt_cotrans.
  induction n as [|n IH]; intros a best Hbest Hlen Hmax Hfirst.
  - cbn [seq foldl]. rewrite Nat.add_0_r. auto.
  - cbn [seq foldl].
    destruct (lookup_lt_is_Some_2 probs a) as [pa Ha]; [lia|].
    destruct (lookup_lt_is_Some_2 probs best) as [pb Hb]; [lia|].
    rewrite Ha, Hb.
    replace (a + S n)%nat with (S a + n)%nat by lia.
    destruct (gt pa pb) eqn:Hgt.
    + apply IH; [lia | lia | |].
      * intros i p q Hi Hp Hq. rewrite Ha in Hq. injection Hq as <-.
        destruct (decide (i = a)) as [->|Hne].
        -- rewrite Ha in Hp. injection Hp as <-. apply gt_irrefl.
        -- destruct (gt p pa) eqn:Hppa; [|reflexivity].
           destruct (gt_cotrans p pb pa Hppa) as [H|H].
           ++ assert (Hia : (i < a)%nat) by lia.
              rewrite (Hmax i p pb Hia Hp Hb) in H. discriminate.
           ++ pose proof (gt_trans pb pa pb H Hgt) as Hbb.
              rewrite (gt_irrefl pb) in Hbb. discriminate.
      * intros i p q Hi Hp Hq. rewrite Ha in Hq. injection Hq as <-.
        destruct (gt_cotrans pa p pb Hgt) as [H|H]; [exact H|].
        rewrite (Hmax i p pb Hi Hp Hb) in H. discriminate.
    + apply IH; [lia | lia | |exact Hfirst].
      intros i p q Hi Hp Hq.
      destruct (decide (i = a)) as [->|Hne].
      * rewrite Ha in Hp. rewrite Hb in Hq. congruence.
      * apply (Hmax i p q); auto. lia.
Qed.
End ArgmaxFacts.

(** X22. The arg-max loop of [predictPad] (and [updateTable]). Whatever
    the comparison does, the index found lies inside a non-empty score
    list, and a list of at most seven scores (an empty list and a list on
    which every comparison fails included) always gives a piece code.
    When [>] is irreflexive, transitive and negatively transitive on the
    scores (no NaN among them), the index is that of the first largest
    score: no score exceeds the one found and every earlier score is
    smaller. *)
Theorem argmax_first_largest (T : Type) (gt : T -> T -> bool) (probs : list T) :
  (probs <> [] -> (argmax T gt probs < length probs)%nat) /\
  ((length probs <= 7)%nat -> exists code, predicted T gt probs = Some code) /\
  ((forall x, gt x x = false) ->
   (forall x y z, gt x y = true -> gt y z = true -> gt x z = true) ->
   (forall x y z, gt x z = true -> gt x y = true \/ gt y z = true) ->
   forall best, probs !! argmax T gt probs = Some best ->
     (forall i p, probs !! i = Some p -> gt p best = false) /\
     (forall i p, (i < argmax T gt probs)%nat -> probs !! i = Some p ->
        gt best p = true)).
Proof.
  split; [apply argmax_in_range|]. split.
  - intros Hlen. unfold predicted.
    assert (Hidx : (argmax T gt probs < 7)%nat).
    { destruct probs as [|p probs]; [vm_compute; lia|].
      pose proof (argmax_in_range T gt (p :: probs)) as H.
      assert (p :: probs <> []) by discriminate. specialize (H H0). lia. }
    destruct (PIECE_CODES !! argmax T gt probs) as [code|] eqn:Hcode; [eauto|].
    apply lookup_ge_None in Hcode. simpl in Hcode. lia.
  - intros Hirr Htr Hco best Hbest.
    assert (Hne : probs <> []) by (intros ->; discriminate).
    destruct probs as [|p0 probs]; [contradiction|].
    destruct (argmax_invariant T gt Hirr Htr Hco (p0 :: probs)
                (length (p0 :: probs) - 1) 1 0)
      as (Hrange & Hmax & Hfirst).
    + lia.
    + simpl. lia.
    + intros i p q Hi Hp Hq. assert (i = 0%nat) as -> by lia.
      rewrite Hp in Hq. injection Hq as <-. apply Hirr.
    + intros i p q Hi. lia.
    + fold (argmax T gt (p0 :: probs)) in Hrange, Hmax, Hfirst.
      split.
      * intros i p Hp. apply (Hmax i p best); [|exact Hp|exact Hbest].
        apply lookup_lt_Some in Hp. simpl in Hp |- *. lia.
      * intros i p Hi Hp. now apply (Hfirst i p best).
Qed.

Lemma argmax_first_largest_witness :
  argmax Z Z.gtb [1; 5; 3; 5] = 1%nat /\
  forall i p, [1; 5; 3; 5] !! i = Some p -> (p >? 5) = false.
Proof.
  split; [reflexivity|].
  destruct (argmax_first_largest Z Z.gtb [1; 5; 3; 5]) as (_ & _ & Hmax).
  apply (Hmax); [| | |reflexivity].
  - intros x. destruct (Z.gtb_spec x x); [lia | reflexivity].
  - intros x y z H1 H2. apply Z.gtb_lt in H1, H2. apply Z.gtb_lt. lia.
  - intros x y z H. apply Z.gtb_lt in H.
    destruct (Z.gtb_spec x y); [now left|]. right. apply Z.gtb_lt. lia.
Defined.

(** ** The score while playing *)

Ltac lvl_modify :=
  let g := fresh "g" in
  let H := fresh "H" in
  intros g H; first [exact H | simpl; lia | simpl; destruct (_ >=? _); lia].

Create HintDb lvl discriminated.
Ltac lvl_solve := repeat first [pres_step lvl_modify | solve [auto with lvl]].

Lemma lvl_arena_write ay ax t : preserves (fun g => 1 <= level g) (arena_write ay ax t).
Proof.
  intros g Hg. unfold arena_write.
  destruct (ay <? 0); [exact Hg|]. destruct (arena g !! Z.to_nat ay); exact Hg.
Qed.
#[local] Hint Resolve lvl_arena_write : lvl.

Lemma lvl_merge : preserves (fun g => 1 <= level g) merge.
Proof.
  unfold merge. pres_step lvl_modify; [lvl_solve|].
  pres_step lvl_modify; [|lvl_solve].
  apply preserves_forEachM. intros row y.
  apply preserves_forEachM. intros v x. lvl_solve.
Qed.
#[local] Hint Resolve lvl_merge : lvl.

Lemma lvl_clearLines_loop fuel : forall y lines,
  preserves (fun g => 1 <= level g) (clearLines_loop fuel y lines).
Proof. induction fuel as [|fuel IH]; intros y lines; simpl; lvl_solve. Qed.
#[local] Hint Resolve lvl_clearLines_loop : lvl.

Lemma lvl_clearLines : preserves (fun g => 1 <= level g) clearLines.
Proof. unfold clearLines, playCue, onLinesCleared. lvl_solve. Qed.
#[local] Hint Resolve lvl_clearLines : lvl.

Lemma lvl_getNextCode : preserves (fun g => 1 <= level g) getNextCode.
Proof. intros g Hg. unfold getNextCode. destruct (queue g); exact Hg. Qed.
#[local] Hint Resolve lvl_getNextCode : lvl.

Lemma lvl_spawnNext : preserves (fun g => 1 <= level g) spawnNext.
Proof. unfold spawnNext, showPadOverlay, gameOverReset. lvl_solve. Qed.
#[local] Hint Resolve lvl_spawnNext : lvl.

Lemma lvl_playerDrop : preserves (fun g => 1 <= level g) playerDrop.
Proof. unfold playerDrop, playCue, showPadOverlay, renderBoard. lvl_solve. Qed.
#[local] Hint Resolve lvl_playerDrop : lvl.

Lemma lvl_playerRotate_kicks rotated oldX ks :
  preserves (fun g => 1 <= level g) (playerRotate_kicks rotated oldX ks).
Proof. induction ks as [|k ks IH]; simpl; lvl_solve. Qed.
#[local] Hint Resolve lvl_playerRotate_kicks : lvl.

Lemma lvl_playerRotate : preserves (fun g => 1 <= level g) playerRotate.
Proof. unfold playerRotate, renderBoard. lvl_solve. Qed.
#[local] Hint Resolve lvl_playerRotate : lvl.

Lemma lvl_hardDrop_loop fuel : preserves (fun g => 1 <= level g) (hardDrop_loop fuel).
Proof. induction fuel as [|fuel IH]; simpl; lvl_solve. Qed.
#[local] Hint Resolve lvl_hardDrop_loop : lvl.

Lemma lvl_onPadReleased_resume c :
  preserves (fun g => 1 <= level g) (onPadReleased_resume c).
Proof.
  unfold onPadReleased_resume, resetPad, renderBoard, showPadOverlay. lvl_solve.
Qed.
#[local] Hint Resolve lvl_onPadReleased_resume : lvl.

Lemma lvl_handle e : preserves (fun g => 1 <= level g) (handle e).
Proof.
  destruct e; simpl;
    unfold playerMove, hardDrop, onPadReleased, update, holdPiece, playCue,
      showPadOverlay, renderBoard;
    lvl_solve.
Qed.

Lemma level_at_least_one g : reachable g -> 1 <= level g.
Proof.
  apply (reachable_invariant (fun g => 1 <= level g)); [reflexivity | apply lvl_handle].
Qed.

Create HintDb sge discriminated.
Ltac sge_solve := repeat first [pres_step same_modify | solve [auto with sge]].

Lemma sge_arena_write g0 ay ax t : preserves (stats_ge g0) (arena_write ay ax t).
Proof.
  intros g Hg. unfold arena_write.
  destruct (ay <? 0); [exact Hg|]. destruct (arena g !! Z.to_nat ay); exact Hg.
Qed.
#[local] Hint Resolve sge_arena_write : sge.

Lemma sge_merge g0 : preserves (stats_ge g0) merge.
Proof.
  unfold merge. pres_step same_modify; [sge_solve|].
  pres_step same_modify; [|sge_solve].
  apply preserves_forEachM. intros row y.
  apply preserves_forEachM. intros v x. sge_solve.
Qed.
#[local] Hint Resolve sge_merge : sge.

Lemma sge_clearLines_loop g0 fuel : forall y lines,
  preserves (stats_ge g0) (clearLines_loop fuel y lines).
Proof. induction fuel as [|fuel IH]; intros y lines; simpl; sge_solve. Qed.
#[local] Hint Resolve sge_clearLines_loop : sge.

(** Points are never negative and the level is at least 1. *)
Lemma sge_clearLines g0 : preserves (stats_ge g0) clearLines.
Proof.
  unfold clearLines. apply preserves_bind; [apply sge_clearLines_loop|].
  intros lines. destruct (lines >? 0) eqn:Hpos; [|apply preserves_ret].
  apply Z.gtb_lt in Hpos.
  apply preserves_bind; [unfold playCue; sge_solve|]. intros _.
  unfold onLinesCleared. apply preserves_modify.
  intros g (Hs & Hl & Hc & H1 & Hq). unfold stats_ge. simpl.
  pose proof (points_for_nonneg lines).
  destruct (_ >=? _); repeat split; try lia; try nia; exact Hq.
Qed.
#[local] Hint Resolve sge_clearLines : sge.

(** With nothing queued [spawnNext] spawns nothing, so it resets nothing. *)
Lemma sge_spawnNext g0 : preserves (stats_ge g0) spawnNext.
Proof.
  intros g Hg. pose proof Hg as (_ & _ & _ & _ & Hq).
  rewrite (spawnNext_empty g Hq). exact Hg.
Qed.
#[local] Hint Resolve sge_spawnNext : sge.

Lemma sge_playerDrop g0 : preserves (stats_ge g0) playerDrop.
Proof. unfold playerDrop, playCue, showPadOverlay, renderBoard. sge_solve. Qed.
#[local] Hint Resolve sge_playerDrop : sge.

Lemma sge_playerRotate_kicks g0 rotated oldX ks :
  preserves (stats_ge g0) (playerRotate_kicks rotated oldX ks).
Proof. induction ks as [|k ks IH]; simpl; sge_solve. Qed.
#[local] Hint Resolve sge_playerRotate_kicks : sge.

Lemma sge_playerRotate g0 : preserves (stats_ge g0) playerRotate.
Proof. unfold playerRotate, renderBoard. sge_solve. Qed.
#[local] Hint Resolve sge_playerRotate : sge.

Lemma sge_hardDrop_loop g0 fuel : preserves (stats_ge g0) (hardDrop_loop fuel).
Proof. induction fuel as [|fuel IH]; simpl; sge_solve. Qed.
#[local] Hint Resolve sge_hardDrop_loop : sge.

Lemma sge_handle g0 e : pad_event e = false -> preserves (stats_ge g0) (handle e).
Proof.
  intros Hpad. destruct e; try discriminate; simpl;
    unfold playerMove, hardDrop, update, holdPiece, renderBoard;
    sge_solve.
Qed.

(** X23. While the game is played from a state it has reached, the score,
    the level and the cleared-lines total never go down: after any key,
    button or frame event each of them is at least what it was, whether
    the handler returned or raised, and the level is always at least 1.
    Only the handlers of the drawing pad can reset them. *)
Theorem score_never_drops_in_play e g g' :
  reachable g -> pad_event e = false -> final (handle e g) = Some g' ->
  score g <= score g' /\ level g <= level g' /\ cleared g <= cleared g' /\
  1 <= level g.
Proof.
  intros Hreach Hpad Hfin.
  pose proof (level_at_least_one g Hreach) as Hlevel.
  pose proof (queue_always_empty g Hreach) as Hq.
  assert (Hstart : stats_ge g g) by (unfold stats_ge; repeat split; auto; lia).
  pose proof (sge_handle g e Hpad g Hstart) as Hpres.
  destruct (handle e g) as [a g1|err g1|]; simpl in Hfin; [| |discriminate];
    injection Hfin as <-; destruct Hpres as (Hs & Hl & Hc & _); auto.
Qed.

Lemma score_never_drops_in_play_witness :
  score boot_T <= score boot_T_turned /\ level boot_T <= level boot_T_turned /\
  cleared boot_T <= cleared boot_T_turned /\ 1 <= level boot_T.
Proof.
  apply (score_never_drops_in_play KeyArrowUp boot_T boot_T_turned).
  - apply (reachable_step boot); [apply reachable_boot|].
    apply (step_event (PadReleased (Some pT))). reflexivity.
  - reflexivity.
  - reflexivity.
Defined.

(** ** The gravity counter *)

Create HintDb dct discriminated.
Ltac dct_solve := repeat first [pres_step same_modify | solve [auto with dct]].

Lemma dct_arena_write d ay ax t :
  preserves (fun g => dropCounter g = d) (arena_write ay ax t).
Proof.
  intros g Hg. unfold arena_write.
  destruct (ay <? 0); [exact Hg|]. destruct (arena g !! Z.to_nat ay); exact Hg.
Qed.
#[local] Hint Resolve dct_arena_write : dct.

Lemma dct_merge d : preserves (fun g => dropCounter g = d) merge.
Proof.
  unfold merge. pres_step same_modify; [dct_solve|].
  pres_step same_modify; [|dct_solve].
  apply preserves_forEachM. intros row y.
  apply preserves_forEachM. intros v x. dct_solve.
Qed.
#[local] Hint Resolve dct_merge : dct.

Lemma dct_clearLines_loop d fuel : forall y lines,
  preserves (fun g => dropCounter g = d) (clearLines_loop fuel y lines).
Proof. induction fuel as [|fuel IH]; intros y lines; simpl; dct_solve. Qed.
#[local] Hint Resolve dct_clearLines_loop : dct.

Lemma dct_clearLines d : preserves (fun g => dropCounter g = d) clearLines.
Proof. unfold clearLines, playCue, onLinesCleared. dct_solve. Qed.
#[local] Hint Resolve dct_clearLines : dct.

Lemma dct_getNextCode d : preserves (fun g => dropCounter g = d) getNextCode.
Proof. intros g Hg. unfold getNextCode. destruct (queue g); exact Hg. Qed.
#[local] Hint Resolve dct_getNextCode : dct.

Lemma dct_spawnNext d : preserves (fun g => dropCounter g = d) spawnNext.
Proof. unfold spawnNext, showPadOverlay, gameOverReset. dct_solve. Qed.
#[local] Hint Resolve dct_spawnNext : dct.

Lemma dct_playerRotate_kicks d rotated oldX ks :
  preserves (fun g => dropCounter g = d) (playerRotate_kicks rotated oldX ks).
Proof. induction ks as [|k ks IH]; simpl; dct_solve. Qed.
#[local] Hint Resolve dct_playerRotate_kicks : dct.

Lemma dct_playerRotate d : preserves (fun g => dropCounter g = d) playerRotate.
Proof. unfold playerRotate, renderBoard. dct_solve. Qed.
#[local] Hint Resolve dct_playerRotate : dct.

Lemma dct_hardDrop_loop d fuel :
  preserves (fun g => dropCounter g = d) (hardDrop_loop fuel).
Proof. induction fuel as [|fuel IH]; simpl; dct_solve. Qed.
#[local] Hint Resolve dct_hardDrop_loop : dct.

Lemma dct_handle d e :
  e <> KeyArrowDown -> (forall delta, e <> EvFrame delta) ->
  preserves (fun g => dropCounter g = d) (handle e).
Proof.
  intros Hdown Hframe. destruct e; try congruence; simpl;
    unfold playerMove, hardDrop, onPadReleased, onPadReleased_resume, holdPiece,
      playCue, showPadOverlay, resetPad, renderBoard;
    try dct_solve;
    now contradiction (Hframe delta).
Qed.

Lemma playerDrop_resets_counter g :
  sound g -> isPieceActive g = true ->
  exists g', playerDrop g = Done tt g' /\ dropCounter g' = 0.
Proof.
  intros Hs Hact. destruct (isPieceActive_true g Hact) as [m Hm].
  destruct (sound_piece g m Hs Hm) as (Hb & _).
  rewrite (playerDrop_step g Hact).
  destruct (collide_total (arena g) (player (shift_y 1 g)) m (board_rows_ge _ Hb) Hm)
    as [[] Hhit]; rewrite Hhit.
  - rewrite shift_y_undo.
    destruct (lock_soft_sound g m Hs Hm) as (g1 & Hrun & _).
    rewrite (bind_done _ _ _ _ _ Hrun). eexists. split; reflexivity.
  - eexists. split; reflexivity.
Qed.

(** X24. Only the soft drop restarts gravity. [playerDrop] on a piece in
    play, from any state the game reaches, returns with [dropCounter] at
    0, whether the piece moved or locked. Every other key, button or pad
    handler, the hard drop and the spawn of a new piece included, leaves
    [dropCounter] exactly as it was, so a piece spawned after a hard drop
    inherits the time already accumulated. *)
Theorem only_soft_drop_resets_gravity g :
  reachable g ->
  (isPieceActive g = true ->
     exists g', playerDrop g = Done tt g' /\ dropCounter g' = 0) /\
  (forall e g', e <> KeyArrowDown -> (forall delta, e <> EvFrame delta) ->
     final (handle e g) = Some g' -> dropCounter g' = dropCounter g).
Proof.
  intros Hreach. split.
  - intros Hact. now apply playerDrop_resets_counter; [apply reachable_sound|].
  - intros e g' Hdown Hframe Hfin.
    pose proof (dct_handle (dropCounter g) e Hdown Hframe g eq_refl) as Hpres.
    destruct (handle e g) as [a g1|err g1|]; simpl in Hfin; [| |discriminate];
      injection Hfin as <-; exact Hpres.
Qed.

Lemma only_soft_drop_resets_gravity_witness :
  exists g', playerDrop boot_T_turned = Done tt g' /\ dropCounter g' = 0.
Proof.
  apply (only_soft_drop_resets_gravity boot_T_turned);
    [apply boot_T_turned_reachable | reflexivity].
Defined.
